(** * Verification of scripts/nox-gitleaks-import.py

    The script reads a Gitleaks TOML file as one text, cuts it at every
    [[[rules]]] marker and recovers five fields from each block with
    regular expressions ([parse_gitleaks]); from the records it prints the
    entries of a Go rule table ([main]).  This development embeds both and
    the part of Python's [str], [re], [float] and [format] they call, then
    proves what the script does: how the text is cut, which blocks give a
    record, what each field holds, where the function raises, and what the
    entries show of a record.

    Text is a list of Unicode code points, as a Python [str] is.  The
    character categories [\s] and [\d] are the ones CPython uses for [str]
    patterns (Unicode 14: [str.isspace], [str.isdecimal]).

    The file has five parts: the embedding, the vocabulary of the
    statements, the lemmas, the properties of [parse_gitleaks] that its
    description states, and further properties of the function and of the
    entries. *)

From Stdlib Require Import Ascii String.
From Stdlib Require Import List NArith ZArith QArith Bool Lia.
Import ListNotations.
Close Scope Q_scope.

(** * Part I.  The embedding *)

(** ** Text *)

Abbreviation char := N (only parsing).
Abbreviation str := (list N) (only parsing).

(** An ASCII literal as text.  The double quote has no convenient literal and
    is named, with a few other characters the statements single out. *)
Definition lit (s : string) : str := map N_of_ascii (list_ascii_of_string s).

Definition DQ : char := 34%N.  (* the double quote *)
Definition SQ : char := 39%N.  (* the single quote *)
Definition NL : char := 10%N.  (* the newline *)
Definition SP : char := 32%N.  (* the space *)
Definition DOT : char := 46%N. (* the point *)
Definition RB : char := 93%N.  (* the closing bracket *)

(** [bool(s)] for a string: the empty string is false. *)
Definition truthy (s : str) : bool :=
  match s with
  | [] => false
  | _ :: _ => true
  end.

(** *** Character categories *)

(** [Py_UNICODE_ISSPACE]: the characters [str.isspace] accepts, also the
    meaning of [\s] in a [str] pattern and what [str.strip()] removes. *)
Definition isspace (c : char) : bool :=
  ((0x9 <=? c) && (c <=? 0xd) || (0x1c <=? c) && (c <=? 0x20)
   || (c =? 0x85) || (c =? 0xa0) || (c =? 0x1680)
   || (0x2000 <=? c) && (c <=? 0x200a)
   || (c =? 0x2028) || (c =? 0x2029) || (c =? 0x202f)
   || (c =? 0x205f) || (c =? 0x3000))%N.

(** The code point of the digit zero of every decimal script (general
    category Nd); each is followed by the digits one to nine. *)
Definition decimal_zeros : list N :=
  [0x30; 0x660; 0x6f0; 0x7c0; 0x966; 0x9e6; 0xa66; 0xae6; 0xb66; 0xbe6;
   0xc66; 0xce6; 0xd66; 0xde6; 0xe50; 0xed0; 0xf20; 0x1040; 0x1090; 0x17e0;
   0x1810; 0x1946; 0x19d0; 0x1a80; 0x1a90; 0x1b50; 0x1bb0; 0x1c40; 0x1c50;
   0xa620; 0xa8d0; 0xa900; 0xa9d0; 0xa9f0; 0xaa50; 0xabf0; 0xff10; 0x104a0;
   0x10d30; 0x11066; 0x110f0; 0x11136; 0x111d0; 0x112f0; 0x11450; 0x114d0;
   0x11650; 0x116c0; 0x11730; 0x118e0; 0x11950; 0x11c50; 0x11d50; 0x11da0;
   0x16a60; 0x16ac0; 0x16b50; 0x1d7ce; 0x1d7d8; 0x1d7e2; 0x1d7ec; 0x1d7f6;
   0x1e140; 0x1e2f0; 0x1e950; 0x1fbf0]%N.

(** [Py_UNICODE_TODECIMAL]: the value of a decimal digit, [None] for any
    other character. *)
Definition todecimal (c : char) : option N :=
  match find (fun z => (z <=? c) && (c <? z + 10))%N decimal_zeros with
  | Some z => Some (c - z)%N
  | None => None
  end.

(** [Py_UNICODE_ISDECIMAL], the meaning of [\d] in a [str] pattern. *)
Definition isdecimal (c : char) : bool :=
  match todecimal c with
  | Some _ => true
  | None => false
  end.

(** *** [str] methods *)

(** [s.startswith(w)] *)
Fixpoint startswith (s w : str) {struct w} : bool :=
  match w, s with
  | [], _ => true
  | _ :: _, [] => false
  | a :: w', c :: s' => (a =? c)%N && startswith s' w'
  end.

(** [w in s] *)
Fixpoint contains (w s : str) : bool :=
  startswith s w ||
  match s with
  | [] => false
  | _ :: s' => contains w s'
  end.

(** [s.split(sep)] for a non-empty separator.  The text is scanned from the
    left; where the separator starts, the running segment ends and the
    separator's characters are stepped over ([skip] counts the ones still to
    pass), so occurrences never overlap. *)
Fixpoint split_from (sep : str) (skip : nat) (s : str) : list str :=
  match s with
  | [] => [[]]
  | c :: t =>
      match skip with
      | S k => split_from sep k t
      | O =>
          if startswith s sep
          then [] :: split_from sep (length sep - 1) t
          else match split_from sep 0 t with
               | seg :: segs => (c :: seg) :: segs
               | [] => [[c]]
               end
      end
  end.

Definition split (s sep : str) : list str := split_from sep 0 s.

(** [s.strip()] *)
Fixpoint lstrip (s : str) : str :=
  match s with
  | c :: t => if isspace c then lstrip t else s
  | [] => []
  end.

Definition rstrip (s : str) : str := rev (lstrip (rev s)).

Definition strip (s : str) : str := rstrip (lstrip s).

(** ** Exceptions *)

Inductive exn := ValueError.

Inductive result (A : Type) :=
| Ok (a : A)
| Raise (e : exn).

Arguments Ok {A} a.
Arguments Raise {A} e.

Definition bind {A B} (x : result A) (f : A -> result B) : result B :=
  match x with
  | Ok a => f a
  | Raise e => Raise e
  end.

Notation "x <- e1 ;; e2" := (bind e1 (fun x => e2))
  (at level 61, e1 at next level, right associativity).

(** ** The regular expressions of the script *)

(** Sets of one character, as the patterns write them. *)
Inductive cset :=
| Dot                 (* .     : anything but a newline *)
| Space               (* \s *)
| NoneOf (c : char)   (* [^c] *)
| DigitOr (c : char). (* [\dc] *)

Definition mem (cs : cset) (c : char) : bool :=
  match cs with
  | Dot => negb (c =? NL)%N
  | Space => isspace c
  | NoneOf x => negb (c =? x)%N
  | DigitOr x => isdecimal c || (c =? x)%N
  end.

(** The patterns repeat single characters only, so repetition is over a
    [cset]; there is one capturing group per pattern. *)
Inductive regex :=
| Lit (w : str)          (* literal text *)
| Star (cs : cset)       (* cs*  greedy *)
| Plus (cs : cset)       (* cs+  greedy *)
| PlusLazy (cs : cset)   (* cs+? *)
| Group (r : regex)      (* ( r ) *)
| Seq (r1 r2 : regex).

Declare Scope regex_scope.
Delimit Scope regex_scope with re.
Bind Scope regex_scope with regex.
Notation "r1 ⋅ r2" := (Seq r1 r2)
  (at level 41, right associativity) : regex_scope.

(** One way of matching at the start of a text: what was consumed, what the
    group holds, what is left. *)
Record hit := Hit { whole : str; grp : option str; rest : str }.

(** Ways of taking characters of [cs] from the front of [s], as (taken, left),
    the longest first: the order a greedy repetition tries them. *)
Fixpoint greedy (cs : cset) (s : str) : list (str * str) :=
  match s with
  | c :: t =>
      if mem cs c
      then map (fun '(u, t') => (c :: u, t')) (greedy cs t) ++ [([], s)]
      else [([], s)]
  | [] => [([], [])]
  end.

(** The same, the shortest first: the order of a lazy repetition. *)
Fixpoint lazy (cs : cset) (s : str) : list (str * str) :=
  ([], s) ::
  match s with
  | c :: t =>
      if mem cs c
      then map (fun '(u, t') => (c :: u, t')) (lazy cs t)
      else []
  | [] => []
  end.

(** At least one character, then [more]. *)
Definition one_then (more : cset -> str -> list (str * str)) (cs : cset)
    (s : str) : list (str * str) :=
  match s with
  | c :: t =>
      if mem cs c
      then map (fun '(u, t') => (c :: u, t')) (more cs t)
      else []
  | [] => []
  end.

Definition plain (ut : str * str) : hit := Hit (fst ut) None (snd ut).

(** Two hits in a row; a later group value overrides an earlier one. *)
Definition join (a b : hit) : hit :=
  Hit (whole a ++ whole b)
      (match grp b with Some g => Some g | None => grp a end)
      (rest b).

(** All the ways [r] matches at the start of [s], in the order a
    backtracking matcher reaches them; the first is the match [re] reports. *)
Fixpoint run (r : regex) (s : str) : list hit :=
  match r with
  | Lit w => if startswith s w then [Hit w None (skipn (length w) s)] else []
  | Star cs => map plain (greedy cs s)
  | Plus cs => map plain (one_then greedy cs s)
  | PlusLazy cs => map plain (one_then lazy cs s)
  | Group r' => map (fun h => Hit (whole h) (Some (whole h)) (rest h)) (run r' s)
  | Seq r1 r2 => flat_map (fun a => map (join a) (run r2 (rest a))) (run r1 s)
  end.

(** [re.search(r, s)]: the first match at the leftmost position that has
    one. *)
Fixpoint search (r : regex) (s : str) : option hit :=
  match run r s with
  | h :: _ => Some h
  | [] =>
      match s with
      | [] => None
      | _ :: t => search r t
      end
  end.

(** [m.group(1)] *)
Definition group1 (m : hit) : str :=
  match grp m with
  | Some g => g
  | None => []
  end.

(** [re.findall(r, s)] for a pattern with one group that matches no empty
    text: the group of every match, scanning from the left and resuming
    where the previous match ended ([skip] counts the characters of that
    match still to pass). *)
Fixpoint findall_from (r : regex) (skip : nat) (s : str) : list str :=
  match s with
  | [] => []
  | _ :: t =>
      match skip with
      | S k => findall_from r k t
      | O =>
          match run r s with
          | h :: _ => group1 h :: findall_from r (length (whole h) - 1) t
          | [] => findall_from r 0 t
          end
      end
  end.

Definition findall (r : regex) (s : str) : list str := findall_from r 0 s.

(** [key\s*=\s*value], the shape of every field pattern. *)
Definition assign (key : string) (value : regex) : regex :=
  (Lit (lit key) ⋅ Star Space ⋅ Lit (lit "=") ⋅ Star Space ⋅ value)%re.

(** [X(...)Y] with literal delimiters. *)
Definition quoted (opening : str) (body : regex) (closing : str) : regex :=
  (Lit opening ⋅ Group body ⋅ Lit closing)%re.

(** [id\s*=\s*Q([^Q]+)Q], writing Q for the double quote *)
Definition id_re : regex := assign "id" (quoted [DQ] (Plus (NoneOf DQ)) [DQ]).

(** [description\s*=\s*Q([^Q]+)Q] *)
Definition desc_re : regex :=
  assign "description" (quoted [DQ] (Plus (NoneOf DQ)) [DQ]).

(** [regex\s*=\s*'''(.+?)'''] *)
Definition regex_sq3_re : regex :=
  assign "regex" (quoted [SQ; SQ; SQ] (PlusLazy Dot) [SQ; SQ; SQ]).

(** [regex\s*=\s*QQQ(.+?)QQQ] *)
Definition regex_dq3_re : regex :=
  assign "regex" (quoted [DQ; DQ; DQ] (PlusLazy Dot) [DQ; DQ; DQ]).

(** [regex\s*=\s*Q([^Q]+)Q] *)
Definition regex_dq_re : regex :=
  assign "regex" (quoted [DQ] (Plus (NoneOf DQ)) [DQ]).

(** [keywords\s*=\s*\[([^\]]+)\]] *)
Definition kw_re : regex :=
  assign "keywords" (quoted (lit "[") (Plus (NoneOf RB)) [RB]).

(** [Q([^Q]+)Q] *)
Definition kw_item_re : regex := quoted [DQ] (Plus (NoneOf DQ)) [DQ].

(** [entropy\s*=\s*([\d.]+)] *)
Definition ent_re : regex := assign "entropy" (Group (Plus (DigitOr DOT))).

(** ** [float] *)

(** A Python float as [float] can make one from digits and a point: a
    finite binary64 number, kept as the rational it is, or infinity.  No
    sign, no NaN: the texts read hold none. *)
Inductive pyfloat :=
| Finite (q : Q)
| Infinity.

(** The integer nearest to [num / den], the even one of two that are
    equally near. *)
Definition round_half_even (num den : Z) : Z :=
  let m := (num / den)%Z in
  match (2 * (num mod den) ?= den)%Z with
  | Lt => m
  | Gt => (m + 1)%Z
  | Eq => if Z.even m then m else (m + 1)%Z
  end.

(** The exponent of [n / d], for [n] and [d] positive: the [e] with
    2^e <= n / d < 2^(e+1). *)
Definition exponent (n d : Z) : Z :=
  let e0 := (Z.log2 n - Z.log2 d)%Z in
  let below :=
    if (0 <=? e0)%Z then (n <? d * 2 ^ e0)%Z
    else (n * 2 ^ (- e0) <? d)%Z in
  if below then (e0 - 1)%Z else e0.

(** The multiple of 2^x nearest to [n / d], as its factor. *)
Definition significand (n d x : Z) : Z :=
  if (0 <=? x)%Z then round_half_even n (d * 2 ^ x)
  else round_half_even (n * 2 ^ (- x)) d.

(** The number m * 2^x. *)
Definition scaled (m x : Z) : Q :=
  if (0 <=? x)%Z then inject_Z (m * 2 ^ x)
  else (m # Z.to_pos (2 ^ (- x)))%Q.

(** The binary64 number nearest to [q], for [q] not negative (IEEE 754,
    round to nearest, ties to even).  A binary64 number has 53 significant
    bits and no bit below 2^-1074: the result is the multiple of 2^x
    nearest to [q], x being the exponent of [q] less 52 and at least -1074;
    it is infinity when it reaches 2^1024. *)
Definition binary64 (q : Q) : pyfloat :=
  let n := Qnum q in
  let d := Z.pos (Qden q) in
  if (n <=? 0)%Z then Finite 0%Q
  else
    let x := Z.max (exponent n d - 52) (-1074) in
    let m := significand n d x in
    if (971 <? x)%Z || ((x =? 971)%Z && (m =? 2 ^ 53)%Z) then Infinity
    else Finite (Qred (scaled m x)).

(** [x > y] for a float and a number. *)
Definition float_gt (x : pyfloat) (y : Q) : bool :=
  match x with
  | Finite q => negb (Qle_bool q y)
  | Infinity => true
  end.

(** [float(s)] for the texts the entropy pattern can capture, runs of digits
    and points ([ent_capture] below).  CPython maps every decimal digit to
    its ASCII value, then reads digits, an optional point and digits, and
    wants at least one digit and nothing left over; anything else raises
    [ValueError].  The number read is rounded to the nearest binary64. *)
Fixpoint digits (s : str) : option (list N) :=
  match s with
  | [] => Some []
  | c :: t =>
      match todecimal c, digits t with
      | Some d, Some ds => Some (d :: ds)
      | _, _ => None
      end
  end.

Definition of_digits (ds : list N) : N :=
  fold_left (fun a d => 10 * a + d)%N ds 0%N.

(** The text before the first [c], and the text after it if there is one. *)
Fixpoint partition_at (c : char) (s : str) : str * option str :=
  match s with
  | [] => ([], None)
  | x :: t =>
      if (x =? c)%N then ([], Some t)
      else let '(a, b) := partition_at c t in (x :: a, b)
  end.

Definition float (s : str) : result pyfloat :=
  let '(ip, fp) := partition_at DOT s in
  match digits ip, digits (match fp with Some f => f | None => [] end) with
  | Some a, Some b =>
      if truthy (a ++ b)
      then Ok (binary64
                 (Qred (Z.of_N (of_digits (a ++ b))
                        # Z.to_pos (10 ^ Z.of_nat (length b)))%Q))
      else Raise ValueError
  | _, _ => Raise ValueError
  end.

(** ** [parse_gitleaks] *)

(** The dictionary appended for a rule, with its keys id, description,
    regex, keywords and entropy. *)
Record rule := Rule {
  r_id : str;
  r_description : str;
  r_regex : str;
  r_keywords : list str;
  r_entropy : pyfloat
}.

Definition DELIM : str := lit "[[rules]]".

Definition id_match (block : str) : option hit := search id_re block.

Definition description (block : str) : str :=
  match search desc_re block with
  | Some m => group1 m
  | None => []
  end.

(** The three attempts of lines 29 to 33: each later pattern is searched
    only if the earlier ones found nothing. *)
Definition regex_match (block : str) : option hit :=
  match search regex_sq3_re block with
  | Some m => Some m
  | None =>
      match search regex_dq3_re block with
      | Some m => Some m
      | None => search regex_dq_re block
      end
  end.

Definition regex_pattern (block : str) : str :=
  match regex_match block with
  | Some m => group1 m
  | None => []
  end.

Definition keywords (block : str) : list str :=
  match search kw_re block with
  | Some m => findall kw_item_re (group1 m)
  | None => []
  end.

Definition entropy (block : str) : result pyfloat :=
  match search ent_re block with
  | Some m => float (group1 m)
  | None => Ok (Finite 0)
  end.

(** One turn of the loop on [block]: [Ok None] where the source says
    [continue] or appends nothing, [Ok (Some r)] where it appends [r]. *)
Definition parse_block (block : str) : result (option rule) :=
  if negb (truthy (strip block)) then Ok None
  else
    match id_match block with
    | None => Ok None
    | Some m =>
        let rule_id := group1 m in
        let description := description block in
        let regex_pattern := regex_pattern block in
        let keywords := keywords block in
        entropy <- entropy block ;;
        if truthy regex_pattern
        then Ok (Some (Rule rule_id description regex_pattern keywords entropy))
        else Ok None
    end.

(** The loop over [parts[1:]], with the list [rules] built so far. *)
Fixpoint loop (rules : list rule) (blocks : list str) : result (list rule) :=
  match blocks with
  | [] => Ok rules
  | block :: more =>
      o <- parse_block block ;;
      match o with
      | Some r => loop (rules ++ [r]) more
      | None => loop rules more
      end
  end.

Definition parse_gitleaks (content : str) : result (list rule) :=
  let parts := split content DELIM in
  loop [] (tl parts).

(** ** The list object *)

(** In Python the list [rules] is an object that [append] updates in place.
    Here the objects alive are kept in a heap, addressed by position, and
    the function is run on a heap: it creates its list, fills it, returns
    its address.  [parse_gitleaks_on_spec] relates this run to
    [parse_gitleaks]. *)
Definition heap := list (list rule).

(** [[]]: a new, empty list object. *)
Definition new_list (h : heap) : nat * heap := (length h, h ++ [[]]).

(** [l.append(r)] for the list at address [a]. *)
Fixpoint list_append (a : nat) (r : rule) (h : heap) : heap :=
  match h, a with
  | [], _ => []
  | l :: h', O => (l ++ [r]) :: h'
  | l :: h', S a' => l :: list_append a' r h'
  end.

Definition deref (a : nat) (h : heap) : list rule := nth a h [].

Fixpoint loop_on (rules : nat) (blocks : list str) (h : heap)
    : result unit * heap :=
  match blocks with
  | [] => (Ok tt, h)
  | block :: more =>
      match parse_block block with
      | Raise e => (Raise e, h)
      | Ok None => loop_on rules more h
      | Ok (Some r) => loop_on rules more (list_append rules r h)
      end
  end.

Definition parse_gitleaks_on (content : str) (h : heap) : result nat * heap :=
  let '(rules, h1) := new_list h in
  let parts := split content DELIM in
  match loop_on rules (tl parts) h1 with
  | (Ok _, h2) => (Ok rules, h2)
  | (Raise e, h2) => (Raise e, h2)
  end.

(** What the caller sees: the list behind the returned address. *)
Definition returned (x : result nat * heap) : result (list rule) :=
  match x with
  | (Ok a, h) => Ok (deref a h)
  | (Raise e, _) => Raise e
  end.

(** ** [main]: the entries for rules.go *)

(** [main] reads the file, parses it, prints a sample of the rules and then,
    from line 118 on, one entry of Go source for every rule the target does
    not have yet.  This last part is embedded: what is printed, as the list
    of the texts given to [print]. *)

Definition TAB : char := 9%N.        (* the tabulator *)
Definition BACKSLASH : char := 92%N. (* the backslash *)

(** The identifiers the target already has. *)
Definition EXISTING_RULES : list str :=
  [lit "1password-secret-key"; lit "1password-service-account-token";
   lit "adafruit-api-key"; lit "adobe-client-id"; lit "adobe-client-secret";
   lit "age-secret-key"; lit "airtable-api-key"; lit "alibaba-access-key-id";
   lit "alibaba-secret-key"; lit "anthropic-api-key";
   lit "artifactory-api-key"; lit "asana-client-id";
   lit "asana-client-secret"; lit "atlassian-api-token";
   lit "aws-access-token"; lit "azure-ad-client-secret";
   lit "bitbucket-client-id"; lit "cloudflare-api-key";
   lit "codecov-access-token"; lit "cohere-api-token";
   lit "confluent-access-token"; lit "databricks-api-token";
   lit "datadog-access-token"; lit "digitalocean-access-token";
   lit "discord-api-token"; lit "discord-client-id"; lit "dropbox-api-token";
   lit "fastly-api-token"; lit "gcp-api-key"; lit "generic-api-key";
   lit "github-token"; lit "gitlab-token"; lit "slack-token";
   lit "stripe-api-key"; lit "twilio-api-key"].

Definition str_eqb (a b : str) : bool :=
  if list_eq_dec N.eq_dec a b then true else false.

(** [x in EXISTING_RULES] *)
Definition is_existing (x : str) : bool :=
  existsb (str_eqb x) EXISTING_RULES.

(** [sep.join(items)] *)
Fixpoint str_join (sep : str) (items : list str) : str :=
  match items with
  | [] => []
  | x :: rest =>
      match rest with
      | [] => x
      | _ :: _ => x ++ sep ++ str_join sep rest
      end
  end.

(** [s.replace(old, new)] for a non-empty [old]: the text is cut at every
    occurrence of [old], from the left and without overlap, and joined
    again with [new]. *)
Definition replace (s old new : str) : str := str_join new (split s old).

(** The decimal digits of [n], the last one computed first; [fuel] bounds
    their number. *)
Fixpoint decimal_from (fuel : nat) (n : N) (acc : list N) : list N :=
  match fuel with
  | O => acc
  | S fuel' =>
      let acc' := (n mod 10)%N :: acc in
      if (n / 10 =? 0)%N then acc' else decimal_from fuel' (n / 10)%N acc'
  end.

Definition decimal_digits (n : N) : list N :=
  decimal_from (S (N.to_nat (N.log2 n))) n [].

(** [format(n, 'd')] for a natural number *)
Definition decimal (n : N) : str := map (fun d => 48 + d)%N (decimal_digits n).

(** [format(n, '03d')]: zeros in front up to three characters. *)
Definition format_03d (n : N) : str :=
  repeat 48%N (3 - length (decimal n)) ++ decimal n.

(** The identifier of the entry: SEC- and [sec_num] in the format [03d]. *)
Definition rule_id (sec_num : N) : str := lit "SEC-" ++ format_03d sec_num.

Definition severity (r : rule) : str :=
  if float_gt (r_entropy r) (9 # 2)
  then lit "findings.SeverityMedium"
  else lit "findings.SeverityHigh".

(** The keywords as a Go slice, [nil] when there is none. *)
Definition kw_str (kws : list str) : str :=
  match kws with
  | [] => lit "nil"
  | _ :: _ =>
      lit "[]string{" ++
      str_join (lit ", ") (map (fun k => [DQ] ++ k ++ [DQ]) kws) ++ lit "}"
  end.

(** The description with its quotes escaped and its newlines turned into
    spaces. *)
Definition desc (r : rule) : str :=
  replace (replace (r_description r) [DQ] [BACKSLASH; DQ]) [NL] [SP].

(** The eight [print] calls for one rule, each text without the newline
    that [print] adds. *)
Definition entry (sec_num : N) (r : rule) : list str :=
  let rule_id := rule_id sec_num in
  [ [TAB; TAB] ++ lit "// " ++ rule_id ++ lit " (from Gitleaks: " ++ r_id r
      ++ lit ")";
    [TAB; TAB] ++ lit "{" ++ rule_id ++ lit ", " ++ severity r
      ++ lit ", findings.ConfidenceMedium,";
    [TAB; TAB; TAB] ++ lit "pattern: `" ++ r_regex r ++ lit "`,";
    [TAB; TAB; TAB] ++ lit "description: " ++ [DQ] ++ desc r ++ [DQ]
      ++ lit ",";
    [TAB; TAB; TAB] ++ lit "keywords: " ++ kw_str (r_keywords r) ++ lit ",";
    [TAB; TAB; TAB] ++ lit "remediation: " ++ [DQ]
      ++ lit "Imported from Gitleaks: " ++ r_id r ++ [DQ] ++ lit ",";
    [TAB; TAB; TAB] ++ lit "references: []string{},";
    [TAB; TAB] ++ lit "}," ].

(** The loop of lines 121 to 149, with the counter [sec_num] passed along:
    what it prints. *)
Fixpoint generate (sec_num : N) (rules : list rule) : list str :=
  match rules with
  | [] => []
  | r :: more =>
      if is_existing (r_id r) then generate sec_num more
      else
        let sec_num := (sec_num + 1)%N in
        entry sec_num r ++ generate sec_num more
  end.

(** What [main] prints from line 118 on, for the rules parsed. *)
Definition rules_go (rules : list rule) : list str :=
  ([NL] ++ lit "=== Ready to copy to rules.go ===" ++ [NL])
  :: generate 163 rules.

(** * Part II.  The vocabulary of the statements *)

(** ** Texts *)

(** A text has a border when a proper, non-empty end of it is also its
    start.  Occurrences of a text without border never overlap. *)
Definition border_free (w : str) : bool :=
  forallb (fun j => negb (startswith w (skipn j w))) (seq 1 (length w - 1)).

(** The text made of a header and blocks, each block behind a separator. *)
Definition assemble (sep header : str) (blocks : list str) : str :=
  header ++ flat_map (fun b => sep ++ b) blocks.

(** The text of an assignment: key, blanks, equals sign, blanks, value. *)
Definition field (key : string) (ws1 ws2 value : str) : str :=
  lit key ++ ws1 ++ lit "=" ++ ws2 ++ value.

(** A text of blanks. *)
Definition blank (ws : str) : bool := forallb isspace ws.


Definition no_dq (s : str) : bool := forallb (fun c => negb (c =? DQ)%N) s.

(** The inside of a bracketed list: leading text, then quoted keywords,
    each with the text that follows it. *)
Definition bracket_body (sep0 : str) (items : list (str * str)) : str :=
  sep0 ++ flat_map (fun '(w, sep) => [DQ] ++ w ++ [DQ] ++ sep) items.

(** A keyword is not empty; neither it nor the text behind it holds a
    double quote. *)
Definition item_ok (it : str * str) : bool :=
  truthy (fst it) && no_dq (fst it) && no_dq (snd it).

(** ** Hits *)

(** [u] put in front of a hit. *)
Definition prefixed (u : str) (h : hit) : hit :=
  Hit (u ++ whole h) (grp h) (rest h).

(** The text [x] does not go on with a character of [cs]. *)
Definition stops (cs : cset) (x : str) : bool :=
  match x with
  | [] => true
  | c :: _ => negb (mem cs c)
  end.

(** [r] matches no text that begins with a character of [cs]. *)
Definition rejects (cs : cset) (r : regex) : Prop :=
  forall c t, mem cs c = true -> run r (c :: t) = [].

(** Every hit of [r] holds a non-empty group. *)
Definition captures (r : regex) : Prop :=
  forall s h, In h (run r s) -> exists g, grp h = Some g /\ g <> [].

(** ** Records *)

Definition valid (r : rule) : Prop := r_id r <> [] /\ r_regex r <> [].

(** The record a block gives, if it gives one. *)
Definition record_of (block : str) : list rule :=
  match parse_block block with
  | Ok (Some r) => [r]
  | _ => []
  end.

(** The records among the outcomes of the blocks, in order. *)
Definition records (outs : list (option rule)) : list rule :=
  flat_map (fun o => match o with Some r => [r] | None => [] end) outs.

(** ** Numerals *)



(** ** Inputs *)

Definition sample_header : str := lit "title = x" ++ [NL].

Definition sample_block : str :=
  [NL] ++
  lit "id = " ++ [DQ] ++ lit "aws" ++ [DQ] ++ [NL] ++
  lit "description = " ++ [DQ] ++ lit "AWS key" ++ [DQ] ++ [NL] ++
  lit "regex = '''AKIA[0-9A-Z]{16}'''" ++ [NL] ++
  lit "keywords = [" ++ [DQ] ++ lit "akia" ++ [DQ] ++ lit ", " ++
     [DQ] ++ lit "aws" ++ [DQ] ++ lit "]" ++ [NL] ++
  lit "entropy = 3.5" ++ [NL].

Definition sample_rule : rule :=
  Rule (lit "aws") (lit "AWS key") (lit "AKIA[0-9A-Z]{16}")
       [lit "akia"; lit "aws"] (Finite (7 # 2)).

(** A block without an identifier. *)
Definition stray_block : str := [NL] ++ lit "description = nothing" ++ [NL].

Definition sample : str :=
  sample_header ++ DELIM ++ sample_block ++ DELIM ++ stray_block.

(** A plain pattern, then a triple-quoted one. *)
Definition two_forms : str :=
  lit "regex = " ++ [DQ] ++ lit "a" ++ [DQ] ++ [NL] ++ lit "regex = '''b'''".

(** A list of keywords with an empty string in the middle. *)
Definition kw_with_empty : str :=
  lit "keywords = [" ++ [DQ] ++ lit "a" ++ [DQ] ++ lit ", " ++ [DQ; DQ] ++
  lit ", " ++ [DQ] ++ lit "b" ++ [DQ] ++ lit "]".

(** A block with an identifier, no pattern and a lone point for entropy. *)
Definition point_block : str :=
  [NL] ++
  lit "id = " ++ [DQ] ++ lit "a" ++ [DQ] ++ [NL] ++
  lit "entropy = ." ++ [NL].

(** The text of that one block. *)
Definition lone_point : str := DELIM ++ point_block.

(** A block with identifier and pattern, and two points in its entropy. *)
Definition two_points : str :=
  [NL] ++
  lit "id = " ++ [DQ] ++ lit "a" ++ [DQ] ++ [NL] ++
  lit "regex = " ++ [DQ] ++ lit "b" ++ [DQ] ++ [NL] ++
  lit "entropy = 1.2.3" ++ [NL].

(** A well-formed block. *)
Definition good_block : str :=
  [NL] ++
  lit "id = " ++ [DQ] ++ lit "c" ++ [DQ] ++ [NL] ++
  lit "regex = " ++ [DQ] ++ lit "d" ++ [DQ] ++ [NL].

Definition good_rule : rule := Rule (lit "c") [] (lit "d") [] (Finite 0).

(** ** Fields *)

Definition no_nl (s : str) : bool := forallb (fun c => negb (c =? NL)%N) s.

(** What the item pattern can capture inside a bracket: a text that is not
    empty and holds neither a double quote nor a closing bracket. *)
Definition keyword_ok (k : str) : Prop :=
  k <> [] /\ no_dq k = true /\ ~ In RB k.

(** A float that is not negative. *)
Definition nonneg (x : pyfloat) : Prop :=
  match x with
  | Finite q => (0 <= q)%Q
  | Infinity => True
  end.

(** What the patterns can capture for a record. *)
Definition shaped (r : rule) : Prop :=
  no_dq (r_id r) = true /\
  no_dq (r_description r) = true /\
  (no_nl (r_regex r) = true \/ no_dq (r_regex r) = true) /\
  Forall keyword_ok (r_keywords r) /\
  nonneg (r_entropy r).

(** Somewhere in [block] stand [key], blanks, the equals sign, blanks,
    [value] and then [post]. *)
Definition written (block : str) (key : string) (value post : str) : Prop :=
  exists pre ws1 ws2,
    block = pre ++ field key ws1 ws2 value ++ post /\
    blank ws1 = true /\ blank ws2 = true.


(** A run of digits and points that is no number: it has no digit, or more
    than one point. *)
Definition refused (s : str) : bool :=
  negb (existsb isdecimal s) || (2 <=? count_occ N.eq_dec s DOT)%nat.

(** ** Entries *)

(** The rules the target does not have yet. *)
Definition fresh (r : rule) : bool := negb (is_existing (r_id r)).

(** The elements of a list with their numbers, counting from [k]. *)
Fixpoint numbered {A} (k : N) (l : list A) : list (N * A) :=
  match l with
  | [] => []
  | x :: t => (k, x) :: numbered (k + 1)%N t
  end.

(** A character of a description as the entry shows it. *)
Definition escaped (c : char) : str :=
  if (c =? DQ)%N then [BACKSLASH; DQ]
  else if (c =? NL)%N then [SP]
  else [c].

(** ** A block with every field *)







Definition full_rule : rule :=
  Rule (lit "new-key") (lit "A new key") (lit "nk_[0-9a-f]{32}")
       [lit "nk_"; lit "new"] (Finite (7 # 2)).

(** ** Places *)

(** [r] matches at position [k] of [s]. *)
Definition matches_at (r : regex) (s : str) (k : nat) : bool :=
  match run r (skipn k s) with
  | [] => false
  | _ :: _ => true
  end.

(** [r] matches at none of the [n] positions of [s] from [from] on. *)
Definition no_match (r : regex) (s : str) (from n : nat) : bool :=
  forallb (fun k => negb (matches_at r s k)) (seq from n).

(** [r] matches at no position of [s] other than [k]. *)
Definition nowhere_else (r : regex) (s : str) (k : nat) : bool :=
  no_match r s 0 k && no_match r s (S k) (length s - k).

(** With [post] behind them, the closing quotes [q] start nowhere in [p]
    after its first character: [p] ends at the first closing quotes. *)
Definition closes_first (q p post : str) : bool :=
  forallb (fun k => negb (startswith (skipn k p ++ q ++ post) q))
          (seq 1 (length p - 1)).

(** Somewhere in [block], regex is followed by blanks, the equals sign,
    blanks and, between the quotes [q], a text that is not empty and made
    of characters of [cs]. *)
Definition has_form (q : str) (cs : cset) (block : str) : Prop :=
  exists p post,
    written block "regex" (q ++ p ++ q) post /\
    p <> [] /\ forallb (mem cs) p = true.

(** [p] is the pattern of the first place of [block] that has the form
    [r]: there regex is followed by blanks, the equals sign, blanks and,
    between the quotes [q], the text [p], which is not empty, is made of
    characters of [cs] and ends at the first closing quotes; [r] matches at
    no earlier position. *)
Definition first_in_form (q : str) (cs : cset) (r : regex) (block p : str)
    : Prop :=
  exists pre ws1 ws2 post,
    block = pre ++ field "regex" ws1 ws2 (q ++ p ++ q) ++ post /\
    blank ws1 = true /\ blank ws2 = true /\
    p <> [] /\ forallb (mem cs) p = true /\
    closes_first q p post = true /\
    no_match r block 0 (length pre) = true.

(** ** More inputs *)

(** A plain pattern, then two triple-quoted ones. *)
Definition three_patterns : str :=
  lit "regex = " ++ [DQ] ++ lit "a" ++ [DQ] ++ [NL] ++
  lit "regex = '''b'''" ++ [NL] ++ lit "regex = '''c'''".

(** Two patterns in triple double quotes, the first with a quote inside. *)
Definition two_dq3 : str :=
  lit "regex = " ++ [DQ; DQ; DQ] ++ lit "a" ++ [DQ] ++ lit "b" ++ [DQ; DQ; DQ]
  ++ [NL] ++
  lit "regex = " ++ [DQ; DQ; DQ] ++ lit "c" ++ [DQ; DQ; DQ].

(** Two plain patterns behind a description that holds triple quotes. *)
Definition two_plain : str :=
  lit "description = " ++ [DQ] ++ lit "uses '''" ++ [DQ] ++ [NL] ++
  lit "regex = " ++ [DQ] ++ lit "a" ++ [DQ] ++ [NL] ++
  lit "regex = " ++ [DQ] ++ lit "b" ++ [DQ].

(** A triple-quoted pattern with a double quote inside, then a plain one. *)
Definition quote_inside : str :=
  lit "id = x" ++ [NL] ++
  lit "regex = '''a" ++ [DQ] ++ lit "b'''" ++ [NL] ++
  lit "regex = " ++ [DQ] ++ lit "c" ++ [DQ].

(** An empty identifier; the letters id, an equals sign and a quoted text
    stand inside the pattern. *)
Definition empty_id_block : str :=
  lit "id = " ++ [DQ; DQ] ++ [NL] ++
  lit "regex = '''client_id=" ++ [DQ] ++ lit "abc" ++ [DQ] ++ lit "'''"
  ++ [NL].

(** An empty pattern; the word regex, an equals sign and quotes stand among
    the keywords. *)
Definition empty_regex_block : str :=
  lit "id = " ++ [DQ] ++ lit "k" ++ [DQ] ++ [NL] ++
  lit "regex = " ++ [DQ; DQ] ++ [NL] ++
  lit "keywords = [" ++ [DQ] ++ lit "regex=" ++ [DQ] ++ lit ", " ++
  [DQ] ++ lit "b" ++ [DQ] ++ lit "]" ++ [NL].

(** An empty identifier and a pattern, nothing else. *)
Definition empty_id_only : str :=
  [NL] ++ field "id" [SP] [SP] [DQ; DQ] ++
  [NL] ++ lit "regex = " ++ [DQ] ++ lit "x" ++ [DQ] ++ [NL].

(** * Part III.  Lemmas *)

(** ** Text *)

Lemma startswith_iff (w s : str) :
  startswith s w = true <-> exists t, s = w ++ t.
Proof.
  revert s; induction w as [|a w IH]; intros s; simpl.
  - split; [intros _; now exists s | reflexivity].
  - destruct s as [|c s].
    + split; [discriminate | intros [t H]; discriminate].
    + rewrite andb_true_iff, N.eqb_eq, IH. split.
      * intros [-> [t ->]]. now exists t.
      * intros [t H]. injection H as -> ->. split; [reflexivity | now exists t].
Qed.

Lemma startswith_app (w t : str) : startswith (w ++ t) w = true.
Proof. apply startswith_iff. now exists t. Qed.

Lemma startswith_skipn (w s : str) :
  startswith s w = true -> s = w ++ skipn (length w) s.
Proof.
  intros H. apply startswith_iff in H as [t ->].
  now rewrite skipn_app, skipn_all, Nat.sub_diag.
Qed.

Lemma startswith_head (a c : char) (w s : str) :
  a <> c -> startswith (c :: s) (a :: w) = false.
Proof. intros H. simpl. now destruct (N.eqb_spec a c). Qed.

Lemma contains_iff (w s : str) :
  contains w s = true <-> exists a b, s = a ++ w ++ b.
Proof.
  induction s as [|c s IH]; simpl.
  - rewrite orb_false_r, startswith_iff. split.
    + intros [t H]. now exists [], t.
    + intros [a [b H]]. destruct a; [now exists b | discriminate].
  - rewrite orb_true_iff, startswith_iff, IH. split.
    + intros [[t H] | [a [b H]]].
      * now exists [], t.
      * exists (c :: a), b. now rewrite H.
    + intros [a [b H]]. destruct a as [|x a].
      * left. now exists b.
      * right. injection H as _ ->. now exists a, b.
Qed.

Lemma contains_tail (w : str) (c : char) (s : str) :
  contains w (c :: s) = false -> contains w s = false.
Proof. simpl. intros H. now apply orb_false_iff in H. Qed.

Lemma contains_head (w s : str) :
  contains w s = false -> startswith s w = false.
Proof. destruct s; simpl; intros H; now apply orb_false_iff in H. Qed.

Create HintDb text.
#[local] Hint Resolve contains_tail contains_head startswith_app : text.

(** A text that does not hold the first character of [w] cannot start an
    occurrence of [w]. *)
Lemma contains_skip (c : char) (w x t : str) :
  ~ In c x -> contains (c :: w) (x ++ t) = contains (c :: w) t.
Proof.
  induction x as [|a x IH]; intros H; [reflexivity|].
  cbn [app contains]. rewrite IH by (intros ?; apply H; now right).
  rewrite startswith_head; [reflexivity|].
  intros ->. apply H. now left.
Qed.

Lemma blank_not_in (c : char) (ws : str) :
  isspace c = false -> blank ws = true -> ~ In c ws.
Proof.
  unfold blank. intros Hc Hw Hin. rewrite forallb_forall in Hw.
  apply Hw in Hin. congruence.
Qed.

(** *** Borders *)

Section Border.

Variable w : str.
Hypothesis w_border_free : border_free w = true.

Lemma border_free_suffix (h u : str) :
  w = h ++ u -> h <> [] -> u <> [] -> startswith w u = false.
Proof.
  intros E Hh Hu. unfold border_free in w_border_free.
  rewrite forallb_forall in w_border_free.
  specialize (w_border_free (length h)).
  assert (L : length w = length h + length u) by (now rewrite E, length_app).
  destruct h as [|x h]; [congruence|]. destruct u as [|y u]; [congruence|].
  simpl in L. rewrite negb_true_iff in w_border_free.
  replace (skipn (length (x :: h)) w) with (y :: u) in w_border_free.
  - apply w_border_free. apply in_seq. simpl. lia.
  - rewrite E. now rewrite skipn_app, skipn_all, Nat.sub_diag.
Qed.

(** Before its first occurrence, a border-free text starts nowhere, not
    even across the boundary. *)
Lemma startswith_before (h t : str) :
  contains w h = false -> h <> [] -> startswith (h ++ w ++ t) w = false.
Proof.
  intros C Hh. destruct (startswith (h ++ w ++ t) w) eqn:E; [|reflexivity].
  exfalso. apply startswith_iff in E as [t' E].
  apply app_eq_app in E as [l [[E1 E2] | [E1 E2]]].
  - (* w lies inside h *)
    assert (contains w h = true) by (apply contains_iff; now exists [], l).
    congruence.
  - (* h is a proper start of w *)
    destruct l as [|y l].
    + rewrite app_nil_r in E1. subst h.
      assert (contains w w = true)
        by (apply contains_iff; exists [], []; now rewrite app_nil_r).
      congruence.
    + assert (S : startswith w (y :: l) = true).
      { apply startswith_iff.
        apply app_eq_app in E2 as [l' [[E3 E4] | [E3 E4]]].
        - now exists l'.
        - exfalso. assert (L := f_equal (@length _) E1).
          rewrite E3 in L. rewrite !length_app in L. simpl in L.
          destruct h; [congruence | simpl in L; lia]. }
      rewrite (border_free_suffix h (y :: l)) in S;
        [discriminate | assumption | assumption | discriminate].
Qed.

End Border.

(** ** [split] *)

Lemma split_from_skip (sep u t : str) :
  split_from sep (length u) (u ++ t) = split_from sep 0 t.
Proof.
  induction u as [|c u IH]; simpl; [|exact IH].
  destruct t; reflexivity.
Qed.

Lemma split_from_nonempty (sep : str) (k : nat) (s : str) :
  split_from sep k s <> [].
Proof.
  revert k; induction s as [|c s IH]; intros k; simpl; [discriminate|].
  destruct k; [|apply IH].
  destruct (startswith (c :: s) sep); [discriminate|].
  destruct (split_from sep 0 s); discriminate.
Qed.

(** Where the separator does not start, the character joins the running
    segment. *)
Lemma split_step (sep : str) (c : char) (t : str) :
  startswith (c :: t) sep = false ->
  split (c :: t) sep = (c :: hd [] (split t sep)) :: tl (split t sep).
Proof.
  intros H. unfold split. cbn [split_from]. rewrite H.
  destruct (split_from sep 0 t) eqn:E; [|reflexivity].
  now apply split_from_nonempty in E.
Qed.

(** No separator: one segment, the text itself. *)
Lemma split_without_sep (sep s : str) :
  contains sep s = false -> split s sep = [s].
Proof.
  induction s as [|c s IH]; intros H; [reflexivity|].
  rewrite split_step by auto with text.
  rewrite IH by eauto with text. reflexivity.
Qed.

Section Rejoin.

Variable sep : str.
Hypothesis sep_nonempty : sep <> [].

(** At the separator, a segment ends. *)
Lemma split_at_sep (t : str) : split (sep ++ t) sep = [] :: split t sep.
Proof.
  unfold split. destruct sep as [|c sep']; [congruence|].
  change ((c :: sep') ++ t) with (c :: sep' ++ t). cbn [split_from].
  change (c :: sep' ++ t) with ((c :: sep') ++ t). rewrite startswith_app.
  replace (length (c :: sep') - 1) with (length sep') by (simpl; lia).
  now rewrite split_from_skip.
Qed.

(** Cutting a text and putting the separator back gives the text. *)
Lemma split_join_bounded (n : nat) : forall s,
  length s <= n ->
  assemble sep (hd [] (split s sep)) (tl (split s sep)) = s.
Proof.
  induction n as [|n IH]; intros s L.
  - destruct s; [reflexivity | simpl in L; lia].
  - destruct s as [|c t]; [reflexivity|].
    destruct (startswith (c :: t) sep) eqn:E.
    + apply startswith_iff in E as [t' E]. rewrite E, split_at_sep.
      cbn [hd tl]. unfold assemble. cbn [app].
      assert (L' : length t' <= n).
      { apply (f_equal (@length _)) in E. rewrite length_app in E.
        simpl in E, L. destruct sep; [congruence | simpl in E; lia]. }
      specialize (IH t' L'). unfold assemble in IH.
      destruct (split t' sep) as [|h rest] eqn:S.
      * now apply split_from_nonempty in S.
      * cbn [hd tl flat_map] in *. now rewrite <- app_assoc, IH.
    + rewrite split_step by exact E. cbn [hd tl]. unfold assemble.
      cbn [app]. f_equal. apply IH. simpl in L. lia.
Qed.

Lemma split_join (s : str) :
  assemble sep (hd [] (split s sep)) (tl (split s sep)) = s.
Proof. now apply (split_join_bounded (length s)). Qed.

(** No segment holds the separator. *)
Lemma split_free_bounded (n : nat) : forall s,
  length s <= n ->
  forallb (fun seg => negb (contains sep seg)) (split s sep) = true.
Proof.
  induction n as [|n IH]; intros s L.
  - destruct s; [|simpl in L; lia]. cbn.
    destruct sep; [congruence | reflexivity].
  - destruct s as [|c t].
    { cbn. destruct sep; [congruence | reflexivity]. }
    destruct (startswith (c :: t) sep) eqn:E.
    + apply startswith_iff in E as [t' E]. rewrite E, split_at_sep.
      cbn [forallb]. rewrite IH.
      * destruct sep; [congruence | reflexivity].
      * apply (f_equal (@length _)) in E. rewrite length_app in E.
        simpl in E, L. destruct sep; [congruence | simpl in E; lia].
    + rewrite split_step by exact E.
      assert (L' : length t <= n) by (simpl in L; lia).
      specialize (IH t L'). assert (J := split_join t).
      destruct (split t sep) as [|h rest] eqn:S.
      { now apply split_from_nonempty in S. }
      cbn [hd tl forallb] in *. apply andb_true_iff in IH as [Hh Hr].
      rewrite Hr, andb_true_r. apply negb_true_iff in Hh.
      apply negb_true_iff. cbn [contains]. rewrite Hh, orb_false_r.
      destruct (startswith (c :: h) sep) eqn:E'; [|reflexivity].
      apply startswith_iff in E' as [x E'].
      assert (X : startswith (c :: t) sep = true).
      { apply startswith_iff. exists (x ++ flat_map (fun b => sep ++ b) rest).
        unfold assemble in J. rewrite <- J.
        change (c :: h ++ flat_map (fun b => sep ++ b) rest)
          with ((c :: h) ++ flat_map (fun b => sep ++ b) rest).
        rewrite E'. now rewrite <- app_assoc. }
      congruence.
Qed.

Lemma split_free (s : str) :
  forallb (fun seg => negb (contains sep seg)) (split s sep) = true.
Proof. now apply (split_free_bounded (length s)). Qed.

Hypothesis sep_border_free : border_free sep = true.

(** A segment free of the separator, the separator, then more text. *)
Lemma split_segment (h t : str) :
  contains sep h = false -> split (h ++ sep ++ t) sep = h :: split t sep.
Proof.
  induction h as [|c h IH]; intros C.
  - cbn [app]. apply split_at_sep.
  - change ((c :: h) ++ sep ++ t) with (c :: h ++ sep ++ t).
    rewrite split_step.
    + rewrite IH by eauto with text. reflexivity.
    + change (c :: h ++ sep ++ t) with ((c :: h) ++ sep ++ t).
      apply startswith_before; [assumption | assumption | discriminate].
Qed.

(** A header and blocks free of the separator are what [split] gives back. *)
Lemma split_assemble (header : str) (blocks : list str) :
  contains sep header = false ->
  forallb (fun b => negb (contains sep b)) blocks = true ->
  split (assemble sep header blocks) sep = header :: blocks.
Proof.
  unfold assemble. revert header.
  induction blocks as [|b bs IH]; intros header Hh Hb; simpl.
  - rewrite app_nil_r. now apply split_without_sep.
  - simpl in Hb. apply andb_true_iff in Hb as [Hb1 Hb2].
    apply negb_true_iff in Hb1.
    rewrite <- app_assoc, split_segment by assumption.
    f_equal. now apply IH.
Qed.

End Rejoin.

(** ** Blank texts *)

Lemma lstrip_nil (s : str) : lstrip s = [] -> blank s = true.
Proof.
  unfold blank. induction s as [|c s IH]; simpl; [reflexivity|].
  destruct (isspace c); [exact IH | discriminate].
Qed.

Lemma lstrip_head (s : str) :
  lstrip s = [] \/ exists c t, lstrip s = c :: t /\ isspace c = false.
Proof.
  induction s as [|c s IH]; simpl; [now left|].
  destruct (isspace c) eqn:E; [exact IH | right; now exists c, s].
Qed.

Lemma strip_nil (s : str) : strip s = [] -> blank s = true.
Proof.
  unfold strip, rstrip. intros H.
  assert (L : lstrip (rev (lstrip s)) = []).
  { destruct (lstrip (rev (lstrip s))); [reflexivity|].
    apply (f_equal (@length _)) in H. rewrite length_rev in H. discriminate. }
  apply lstrip_nil in L. apply lstrip_nil.
  destruct (lstrip_head s) as [E | [c [t [E Hc]]]]; [exact E|].
  rewrite E in L. unfold blank in L. rewrite forallb_forall in L.
  rewrite (L c) in Hc; [discriminate|]. apply -> in_rev. now left.
Qed.

(** A blank text holds no key. *)
Lemma blank_no_key (k0 : char) (kw s : str) :
  isspace k0 = false -> blank s = true -> contains (k0 :: kw) s = false.
Proof.
  unfold blank. intros Hk. induction s as [|c s IH]; intros H; [reflexivity|].
  simpl in H. apply andb_true_iff in H as [Hc H].
  cbn [contains]. rewrite (IH H), orb_false_r.
  apply startswith_head. congruence.
Qed.

(** ** The matcher *)

Lemma join_plain (u t : str) (h : hit) : join (Hit u None t) h = prefixed u h.
Proof. unfold join, prefixed. simpl. now destruct (grp h). Qed.

Lemma prefixed_app (u v : str) (h : hit) :
  prefixed u (prefixed v h) = prefixed (u ++ v) h.
Proof. unfold prefixed. simpl. now rewrite app_assoc. Qed.

Lemma search_here (r : regex) (s : str) (h : hit) (hs : list hit) :
  run r s = h :: hs -> search r s = Some h.
Proof. intros H. destruct s; simpl; now rewrite H. Qed.

Lemma search_next (r : regex) (c : char) (t : str) :
  run r (c :: t) = [] -> search r (c :: t) = search r t.
Proof. intros H. cbn [search]. now rewrite H. Qed.

Lemma run_lit_seq (w : str) (r : regex) (t : str) :
  run (Lit w ⋅ r) (w ++ t) = map (prefixed w) (run r t).
Proof.
  cbn [run]. rewrite startswith_app.
  rewrite skipn_app, skipn_all, Nat.sub_diag. cbn [flat_map rest skipn app].
  rewrite app_nil_r. apply map_ext. intros h. apply join_plain.
Qed.

Lemma run_lit_seq_miss (w : str) (r : regex) (s : str) :
  startswith s w = false -> run (Lit w ⋅ r) s = [].
Proof. intros H. cbn [run]. now rewrite H. Qed.

Lemma rejects_lit (cs : cset) (c0 : char) (w : str) (r : regex) :
  mem cs c0 = false -> rejects cs (Lit (c0 :: w) ⋅ r).
Proof.
  intros H c t Hc. apply run_lit_seq_miss, startswith_head. congruence.
Qed.

Lemma flat_map_map {A B C} (f : B -> list C) (g : A -> B) (l : list A) :
  flat_map f (map g l) = flat_map (fun x => f (g x)) l.
Proof. induction l; simpl; congruence. Qed.

Lemma in_run_seq (r1 r2 : regex) (s : str) (h : hit) :
  In h (run (r1 ⋅ r2) s) <->
  exists a b, In a (run r1 s) /\ In b (run r2 (rest a)) /\ h = join a b.
Proof.
  cbn [run]. rewrite in_flat_map. split.
  - intros [a [Ha H]]. apply in_map_iff in H as [b [E Hb]]. now exists a, b.
  - intros [a [b [Ha [Hb ->]]]]. exists a. split; [assumption|].
    now apply in_map.
Qed.

(** *** Repetitions *)

Section Repetition.

Variable cs : cset.

(** A greedy repetition followed by a continuation that fails on a text
    going on with the repeated characters: only the longest run
    survives. *)
Lemma greedy_then (ws x : str) :
  forall (F : str * str -> list hit),
  (forall u c t, mem cs c = true -> F (u, c :: t) = []) ->
  forallb (mem cs) ws = true -> stops cs x = true ->
  flat_map F (greedy cs (ws ++ x)) = F (ws, x).
Proof.
  induction ws as [|c ws IH]; intros F HF Hw Hx.
  - cbn [app]. destruct x as [|c t]; simpl.
    + now rewrite app_nil_r.
    + simpl in Hx. apply negb_true_iff in Hx. rewrite Hx. simpl.
      now rewrite app_nil_r.
  - simpl in Hw. apply andb_true_iff in Hw as [Hc Hw].
    cbn [app greedy]. rewrite Hc.
    rewrite flat_map_app, flat_map_map. cbn [flat_map].
    rewrite (HF [] c _ Hc). rewrite !app_nil_r.
    rewrite IH; auto.
Qed.

(** A lazy repetition: the first split after which the continuation
    succeeds is the one reported. *)
Lemma lazy_then (p x : str) :
  forall (F : str * str -> list hit),
  (forall u v, p = u ++ v -> v <> [] -> F (u, v ++ x) = []) ->
  forallb (mem cs) p = true ->
  exists more, flat_map F (lazy cs (p ++ x)) = F (p, x) ++ more.
Proof.
  induction p as [|c p IH]; intros F HF Hp.
  - cbn [app]. destruct x as [|c t]; cbn [lazy flat_map]; eauto.
  - simpl in Hp. apply andb_true_iff in Hp as [Hc Hp].
    cbn [app lazy]. rewrite Hc. cbn [flat_map].
    change (F ([], c :: p ++ x)) with (F ([], (c :: p) ++ x)).
    rewrite (HF [] (c :: p) eq_refl) by discriminate. cbn [app].
    rewrite flat_map_map.
    apply IH; auto.
    intros u v -> Hv. now apply (HF (c :: u) v).
Qed.

Lemma greedy_sound (s u t : str) :
  In (u, t) (greedy cs s) -> s = u ++ t /\ forallb (mem cs) u = true.
Proof.
  revert u t; induction s as [|c s IH]; intros u t; simpl.
  - intros [H | []]. now inversion H.
  - destruct (mem cs c) eqn:M.
    + rewrite in_app_iff, in_map_iff.
      intros [[[u' t'] [E H]] | [H | []]].
      * inversion E; subst. apply IH in H as [-> H]. simpl. now rewrite M.
      * now inversion H.
    + intros [H | []]. now inversion H.
Qed.

Lemma lazy_sound (s u t : str) :
  In (u, t) (lazy cs s) -> s = u ++ t /\ forallb (mem cs) u = true.
Proof.
  revert u t; induction s as [|c s IH]; intros u t; simpl.
  - intros [H | []]. now inversion H.
  - intros [H | H]; [now inversion H|].
    destruct (mem cs c) eqn:M; [|contradiction].
    apply in_map_iff in H as [[u' t'] [E H]].
    inversion E; subst. apply IH in H as [-> H]. simpl. now rewrite M.
Qed.

Lemma one_then_sound more (s u t : str) :
  (forall s u t, In (u, t) (more cs s) ->
                 s = u ++ t /\ forallb (mem cs) u = true) ->
  In (u, t) (one_then more cs s) ->
  s = u ++ t /\ u <> [] /\ forallb (mem cs) u = true.
Proof.
  intros M. destruct s as [|c s]; simpl; [contradiction|].
  destruct (mem cs c) eqn:E; [|contradiction].
  intros H. apply in_map_iff in H as [[u' t'] [E' H]].
  inversion E'; subst. apply M in H as [-> H].
  repeat split; [discriminate|]. simpl. now rewrite E.
Qed.

(** What [cs+] and [cs+?] take: a non-empty run of characters of [cs]. *)
Lemma plus_sound (s : str) (h : hit) :
  In h (run (Plus cs) s) \/ In h (run (PlusLazy cs) s) ->
  s = whole h ++ rest h /\ whole h <> [] /\
  forallb (mem cs) (whole h) = true.
Proof.
  cbn [run]. rewrite !in_map_iff.
  intros [[[u t] [<- H]] | [[u t] [<- H]]]; cbn [plain fst snd whole rest].
  - apply one_then_sound in H; [assumption | apply greedy_sound].
  - apply one_then_sound in H; [assumption | apply lazy_sound].
Qed.

Lemma run_star_seq (r : regex) (ws x : str) :
  rejects cs r -> forallb (mem cs) ws = true -> stops cs x = true ->
  run (Star cs ⋅ r) (ws ++ x) = map (prefixed ws) (run r x).
Proof.
  intros R Hw Hx. cbn [run]. rewrite flat_map_map.
  rewrite greedy_then; auto.
  - apply map_ext. intros h. apply join_plain.
  - intros u c t Hc. cbn [plain snd rest]. now rewrite R.
Qed.

(** The group [(cs+)] before a closing text that starts outside [cs]. *)
Lemma run_group_plus_lit (c0 : char) (cl p post : str) :
  mem cs c0 = false -> p <> [] -> forallb (mem cs) p = true ->
  run (Group (Plus cs) ⋅ Lit (c0 :: cl)) (p ++ (c0 :: cl) ++ post) =
  [Hit (p ++ c0 :: cl) (Some p) post].
Proof.
  intros H0 Hp Hw. destruct p as [|c p]; [congruence|].
  simpl in Hw. apply andb_true_iff in Hw as [Hc Hw].
  cbn [run app one_then]. rewrite Hc. rewrite !flat_map_map.
  rewrite greedy_then; auto.
  - cbn [plain fst snd whole rest].
    change (c0 :: cl ++ post) with ((c0 :: cl) ++ post).
    rewrite startswith_app, skipn_app, skipn_all, Nat.sub_diag.
    reflexivity.
  - intros u c' t Hc'. cbn [plain snd rest].
    rewrite startswith_head; [reflexivity | congruence].
  - simpl. now rewrite H0.
Qed.

(** The group [(cs+?)] before a closing text: the capture ends at the
    first place, after at least one character, where the closing text
    starts. *)
Lemma run_group_lazy_lit (cl p post : str) :
  p <> [] -> forallb (mem cs) p = true ->
  (forall u v, p = u ++ v -> u <> [] -> v <> [] ->
               startswith (v ++ cl ++ post) cl = false) ->
  exists more,
    run (Group (PlusLazy cs) ⋅ Lit cl) (p ++ cl ++ post) =
    Hit (p ++ cl) (Some p) post :: more.
Proof.
  intros Hp Hw Hcl. destruct p as [|c p]; [congruence|].
  simpl in Hw. apply andb_true_iff in Hw as [Hc Hw].
  cbn [run app one_then]. rewrite Hc. rewrite !flat_map_map.
  edestruct (lazy_then p (cl ++ post)) as [more E]; [| exact Hw |].
  2: { rewrite E. cbn [plain fst snd whole rest].
       rewrite startswith_app, skipn_app, skipn_all, Nat.sub_diag.
       cbn [map join app whole grp rest skipn]. eexists. reflexivity. }
  intros u v -> Hv. cbn [plain fst snd whole rest].
  rewrite (Hcl (c :: u) v);
    [reflexivity | reflexivity | discriminate | assumption].
Qed.

End Repetition.

(** *** What a hit says about the text *)

(** A hit splits the text it was found in. *)
Lemma run_sound (r : regex) : forall s h,
  In h (run r s) -> s = whole h ++ rest h.
Proof.
  induction r as [w | cs | cs | cs | r IH | r1 IH1 r2 IH2]; intros s h.
  - simpl. destruct (startswith s w) eqn:E; [|contradiction].
    intros [<- | []]. simpl. now apply startswith_skipn.
  - simpl. rewrite in_map_iff. intros [[u t] [<- H]]. simpl.
    now apply greedy_sound in H.
  - intros H. apply (plus_sound cs s h). now left.
  - intros H. apply (plus_sound cs s h). now right.
  - simpl. rewrite in_map_iff. intros [a [<- H]]. simpl. now apply IH.
  - rewrite in_run_seq. intros [a [b [Ha [Hb ->]]]].
    simpl. rewrite <- app_assoc, <- (IH2 _ _ Hb). now apply IH1.
Qed.

Lemma search_sound (r : regex) (s : str) (h : hit) :
  search r s = Some h ->
  exists pre, s = pre ++ whole h ++ rest h /\ In h (run r (whole h ++ rest h)).
Proof.
  induction s as [|c s IH]; cbn [search].
  - destruct (run r []) eqn:E; [discriminate|].
    intros [= ->]. exists [].
    assert (H : In h (run r [])) by (rewrite E; now left).
    rewrite <- (run_sound _ _ _ H). auto.
  - destruct (run r (c :: s)) eqn:E.
    + intros H. destruct (IH H) as [pre [-> Hin]]. now exists (c :: pre).
    + intros [= ->]. exists [].
      assert (H : In h (run r (c :: s))) by (rewrite E; now left).
      rewrite <- (run_sound _ _ _ H). auto.
Qed.

(** *** Groups are never empty *)

Lemma captures_seq (r1 r2 : regex) : captures r2 -> captures (r1 ⋅ r2).
Proof.
  intros C s h H. apply in_run_seq in H as [a [b [_ [Hb ->]]]].
  destruct (C _ _ Hb) as [g [G Hg]]. exists g. split; [|assumption].
  unfold join. simpl. now rewrite G.
Qed.

Lemma captures_group_lit (body : regex) (w : str) :
  (forall s h, In h (run body s) -> whole h <> []) ->
  captures (Group body ⋅ Lit w).
Proof.
  intros B s h H. apply in_run_seq in H as [a [b [Ha [Hb ->]]]].
  cbn [run] in Ha. apply in_map_iff in Ha as [a' [<- Ha']].
  cbn [run] in Hb. destruct (startswith _ w); [|contradiction].
  destruct Hb as [<- | []]. exists (whole a'). split; [reflexivity|].
  now apply (B s).
Qed.

Lemma captures_assign_quoted (key : string) (op cl : str) (body : regex) :
  (forall s h, In h (run body s) -> whole h <> []) ->
  captures (assign key (quoted op body cl)).
Proof.
  intros B. unfold assign, quoted.
  do 5 apply captures_seq. now apply captures_group_lit.
Qed.

Lemma captures_plus (key : string) (op cl : str) (cs : cset) :
  captures (assign key (quoted op (Plus cs) cl)).
Proof.
  apply captures_assign_quoted. intros s h H. apply (plus_sound cs s h). auto.
Qed.

Lemma captures_plus_lazy (key : string) (op cl : str) (cs : cset) :
  captures (assign key (quoted op (PlusLazy cs) cl)).
Proof.
  apply captures_assign_quoted. intros s h H. apply (plus_sound cs s h). auto.
Qed.

Lemma search_captures (r : regex) (s : str) (m : hit) :
  captures r -> search r s = Some m -> group1 m <> [].
Proof.
  intros C H. apply search_sound in H as [pre [_ H]].
  destruct (C _ _ H) as [g [G Hg]]. unfold group1. now rewrite G.
Qed.

(** *** Field patterns *)

Lemma field_app (key : string) (ws1 ws2 v post : str) :
  field key ws1 ws2 v ++ post = field key ws1 ws2 (v ++ post).
Proof. unfold field. now rewrite <- !app_assoc. Qed.

Section Field.

Variables (key : string) (v : regex).

Lemma run_assign_miss (s : str) :
  startswith s (lit key) = false -> run (assign key v) s = [].
Proof. apply run_lit_seq_miss. Qed.

(** No key, no match. *)
Lemma search_absent (s : str) :
  contains (lit key) s = false -> search (assign key v) s = None.
Proof.
  induction s as [|c s IH]; intros C.
  - simpl in C. rewrite orb_false_r in C.
    cbn [search]. now rewrite run_assign_miss.
  - rewrite search_next.
    + eauto with text.
    + apply run_assign_miss. auto with text.
Qed.

(** Where the key stands, then blanks, the equals sign and blanks: what is
    left is for the value. *)
Lemma run_assign (ws1 ws2 x : str) :
  blank ws1 = true -> blank ws2 = true ->
  stops Space x = true -> rejects Space v ->
  run (assign key v) (field key ws1 ws2 x) =
  map (prefixed (lit key ++ ws1 ++ lit "=" ++ ws2)) (run v x).
Proof.
  intros H1 H2 Hx Hv. unfold assign, field.
  rewrite run_lit_seq, run_star_seq; auto.
  - rewrite run_lit_seq, run_star_seq; auto.
    rewrite !map_map. apply map_ext. intros h.
    rewrite !prefixed_app. now rewrite <- !app_assoc.
  - now apply rejects_lit.
Qed.

Hypothesis key_border_free : border_free (lit key) = true.

(** No match starts before the first occurrence of the key. *)
Lemma search_before (pre t : str) :
  contains (lit key) pre = false ->
  search (assign key v) (pre ++ lit key ++ t) =
  search (assign key v) (lit key ++ t).
Proof.
  induction pre as [|c pre IH]; intros C; [reflexivity|].
  change ((c :: pre) ++ lit key ++ t) with (c :: pre ++ lit key ++ t).
  rewrite search_next.
  - eauto with text.
  - apply run_assign_miss.
    change (c :: pre ++ lit key ++ t) with ((c :: pre) ++ lit key ++ t).
    apply startswith_before; [assumption | assumption | discriminate].
Qed.

Variables pre ws1 ws2 x : str.
Hypothesis pre_free : contains (lit key) pre = false.
Hypothesis ws1_blank : blank ws1 = true.
Hypothesis ws2_blank : blank ws2 = true.
Hypothesis x_stops : stops Space x = true.
Hypothesis v_rejects : rejects Space v.

(** The first assignment to [key] in a block, with a value the pattern [v]
    accepts: this is what [search] reports. *)
Lemma search_field (h : hit) (more : list hit) :
  run v x = h :: more ->
  search (assign key v) (pre ++ field key ws1 ws2 x) =
  Some (prefixed (lit key ++ ws1 ++ lit "=" ++ ws2) h).
Proof.
  intros E. unfold field. rewrite search_before by assumption.
  eapply search_here. fold (field key ws1 ws2 x).
  rewrite run_assign by assumption. rewrite E. reflexivity.
Qed.

(** The same assignment with a value the pattern refuses, and no other
    occurrence of the key behind it: nothing is found. *)
Lemma search_field_none (k0 : char) (kw : str) :
  lit key = k0 :: kw -> ~ In k0 kw -> isspace k0 = false -> k0 <> 61%N ->
  run v x = [] -> contains (lit key) x = false ->
  search (assign key v) (pre ++ field key ws1 ws2 x) = None.
Proof.
  intros K Hk Hs He E Cx. unfold field.
  rewrite search_before by assumption.
  assert (R : run (assign key v) (field key ws1 ws2 x) = [])
    by (rewrite run_assign by assumption; now rewrite E).
  unfold field in R. revert R. rewrite K. cbn [app]. intros R.
  rewrite search_next by exact R.
  apply search_absent. rewrite K.
  rewrite contains_skip by assumption.
  rewrite contains_skip by now apply blank_not_in.
  rewrite contains_skip by (simpl; intros [?|[]]; congruence).
  rewrite contains_skip by now apply blank_not_in.
  now rewrite <- K.
Qed.

End Field.

(** The side conditions of the field lemmas, on concrete keys and
    delimiters. *)
Ltac field_side :=
  first [ reflexivity | assumption | discriminate
        | apply rejects_lit; reflexivity
        | solve [vm_compute; intuition discriminate] ].

(** *** Quoted values *)

Lemma run_quoted_greedy (cs : cset) (o0 c0 : char) (op cl p post : str) :
  mem cs c0 = false -> p <> [] -> forallb (mem cs) p = true ->
  run (quoted (o0 :: op) (Plus cs) (c0 :: cl))
      ((o0 :: op) ++ p ++ (c0 :: cl) ++ post) =
  [Hit ((o0 :: op) ++ p ++ c0 :: cl) (Some p) post].
Proof.
  intros H0 Hp Hw. unfold quoted.
  rewrite run_lit_seq, run_group_plus_lit by assumption. reflexivity.
Qed.

Lemma run_quoted_lazy (cs : cset) (o0 : char) (op cl p post : str) :
  p <> [] -> forallb (mem cs) p = true ->
  (forall u v, p = u ++ v -> u <> [] -> v <> [] ->
               startswith (v ++ cl ++ post) cl = false) ->
  exists more,
    run (quoted (o0 :: op) (PlusLazy cs) cl) ((o0 :: op) ++ p ++ cl ++ post) =
    Hit ((o0 :: op) ++ p ++ cl) (Some p) post :: more.
Proof.
  intros Hp Hw Hcl. unfold quoted. rewrite run_lit_seq.
  destruct (run_group_lazy_lit cs cl p post Hp Hw Hcl) as [more ->].
  eexists. reflexivity.
Qed.

(** A hit of a quoted field pattern shows the opening delimiter in the
    text. *)
Lemma hit_needs_opening (key : string) (op cl : str) (body : regex)
    (s : str) (h : hit) :
  In h (run (assign key (quoted op body cl)) s) -> contains op s = true.
Proof.
  unfold assign, quoted. intros H.
  apply in_run_seq in H as [a1 [b1 [A1 [H _]]]]. apply run_sound in A1.
  apply in_run_seq in H as [a2 [b2 [A2 [H _]]]]. apply run_sound in A2.
  apply in_run_seq in H as [a3 [b3 [A3 [H _]]]]. apply run_sound in A3.
  apply in_run_seq in H as [a4 [b4 [A4 [H _]]]]. apply run_sound in A4.
  apply in_run_seq in H as [a5 [b5 [A5 _]]].
  cbn [run] in A5. destruct (startswith (rest a4) op) eqn:E; [|contradiction].
  apply startswith_iff in E as [t E].
  apply contains_iff.
  exists (whole a1 ++ whole a2 ++ whole a3 ++ whole a4), t.
  rewrite A1, A2, A3, A4, E. now rewrite <- !app_assoc.
Qed.

Lemma search_needs_opening (key : string) (op cl : str) (body : regex)
    (s : str) :
  contains op s = false -> search (assign key (quoted op body cl)) s = None.
Proof.
  intros C. destruct (search _ s) as [h|] eqn:E; [exfalso | reflexivity].
  apply search_sound in E as [pre [-> H]].
  apply hit_needs_opening, contains_iff in H as [a [b H]].
  assert (X : contains op (pre ++ whole h ++ rest h) = true).
  { apply contains_iff. exists (pre ++ a), b. rewrite H.
    now rewrite <- !app_assoc. }
  congruence.
Qed.



(** The first [keywords = [inner]] of a block. *)
Lemma search_kw (pre ws1 ws2 inner post : str) :
  contains (lit "keywords") pre = false ->
  blank ws1 = true -> blank ws2 = true ->
  inner <> [] -> forallb (fun c => negb (c =? RB)%N) inner = true ->
  exists m,
    search kw_re
      (pre ++ field "keywords" ws1 ws2 (lit "[" ++ inner ++ [RB]) ++ post)
    = Some m /\ group1 m = inner.
Proof.
  intros C H1 H2 Hp Hc. rewrite field_app, <- !app_assoc.
  eexists. split.
  - unfold kw_re. eapply search_field;
      first [eassumption | reflexivity | apply rejects_lit; reflexivity
            | apply (run_quoted_greedy (NoneOf RB) 91%N RB [] []);
              [reflexivity | assumption | assumption] ].
  - reflexivity.
Qed.

(** ** [findall] *)

Lemma findall_from_skip (r : regex) (u t : str) :
  findall_from r (length u) (u ++ t) = findall_from r 0 t.
Proof.
  induction u as [|c u IH]; simpl; [|exact IH].
  destruct t; reflexivity.
Qed.

Lemma findall_miss (r : regex) (c : char) (t : str) :
  run r (c :: t) = [] -> findall r (c :: t) = findall r t.
Proof. intros H. unfold findall. cbn [findall_from]. now rewrite H. Qed.

(** A match [c :: w] at the front: its group, then the matches behind it. *)
Lemma findall_hit (r : regex) (c : char) (w t : str) (g : option str)
    (more : list hit) :
  run r (c :: w ++ t) = Hit (c :: w) g t :: more ->
  findall r (c :: w ++ t) = group1 (Hit (c :: w) g t) :: findall r t.
Proof.
  intros H. unfold findall. cbn [findall_from]. rewrite H.
  cbn [whole length]. rewrite Nat.sub_succ, Nat.sub_0_r.
  now rewrite findall_from_skip.
Qed.

(** Text without a double quote holds no keyword. *)
Lemma findall_item_sep (sep t : str) :
  no_dq sep = true -> findall kw_item_re (sep ++ t) = findall kw_item_re t.
Proof.
  unfold no_dq. induction sep as [|c sep IH]; intros H; [reflexivity|].
  simpl in H. apply andb_true_iff in H as [Hc H].
  cbn [app]. rewrite findall_miss; [now apply IH|].
  unfold kw_item_re, quoted. apply run_lit_seq_miss, startswith_head.
  apply negb_true_iff, N.eqb_neq in Hc. congruence.
Qed.

(** One quoted keyword at the front. *)
Lemma findall_item (w t : str) :
  w <> [] -> no_dq w = true ->
  findall kw_item_re ([DQ] ++ w ++ [DQ] ++ t) = w :: findall kw_item_re t.
Proof.
  intros Hw Hc.
  assert (E := run_quoted_greedy (NoneOf DQ) DQ DQ [] [] w t eq_refl Hw Hc).
  cbn [app] in *. unfold kw_item_re.
  replace (w ++ DQ :: t) with ((w ++ [DQ]) ++ t) in *
    by now rewrite <- app_assoc.
  erewrite findall_hit by exact E. reflexivity.
Qed.

Lemma findall_bracket_body (sep0 : str) (items : list (str * str)) :
  no_dq sep0 = true -> forallb item_ok items = true ->
  findall kw_item_re (bracket_body sep0 items) = map fst items.
Proof.
  unfold bracket_body. intros H0 Hi. rewrite findall_item_sep by exact H0.
  clear H0. induction items as [|[w sep] items IH]; [reflexivity|].
  simpl in Hi. apply andb_true_iff in Hi as [Hw Hi].
  unfold item_ok in Hw. cbn [fst snd] in Hw.
  apply andb_true_iff in Hw as [Hw Hs]. apply andb_true_iff in Hw as [Hn Hw].
  cbn [flat_map map fst]. rewrite <- !app_assoc.
  rewrite findall_item by (auto; now destruct w).
  rewrite findall_item_sep by exact Hs. f_equal. now apply IH.
Qed.

(** ** One turn of the loop *)

Lemma truthy_nonempty (s : str) : truthy s = true <-> s <> [].
Proof. destruct s; simpl; split; congruence. Qed.

(** What a block must satisfy for a record to be appended. *)
Lemma parse_block_some (block : str) (r : rule) :
  parse_block block = Ok (Some r) <->
  exists m e,
    truthy (strip block) = true /\ id_match block = Some m /\
    entropy block = Ok e /\ truthy (regex_pattern block) = true /\
    r = Rule (group1 m) (description block) (regex_pattern block)
             (keywords block) e.
Proof.
  unfold parse_block. split.
  - destruct (truthy (strip block)); cbn [negb]; [|discriminate].
    destruct (id_match block) as [m|]; [|discriminate].
    destruct (entropy block) as [e|]; cbn [bind]; [|discriminate].
    destruct (truthy (regex_pattern block)) eqn:T; [|discriminate].
    intros [= <-]. exists m, e. auto.
  - intros [m [e [-> [-> [-> [-> ->]]]]]]. reflexivity.
Qed.

(** [float] is the only place an exception comes from. *)
Lemma parse_block_raise (block : str) (e : exn) :
  parse_block block = Raise e <->
  truthy (strip block) = true /\ id_match block <> None /\
  exists m, search ent_re block = Some m /\ float (group1 m) = Raise e.
Proof.
  unfold parse_block, entropy. split.
  - destruct (truthy (strip block)); cbn [negb]; [|discriminate].
    destruct (id_match block) as [m|]; [|discriminate].
    destruct (search ent_re block) as [m'|]; cbn [bind].
    + destruct (float (group1 m')) as [q|e'] eqn:F; cbn [bind].
      * destruct (truthy (regex_pattern block)); discriminate.
      * intros H. assert (E : e' = e) by congruence. subst e'.
        repeat split; [discriminate|]. now exists m'.
    + destruct (truthy (regex_pattern block)); discriminate.
  - intros [-> [I [m [-> F]]]]. cbn [negb].
    destruct (id_match block); [|congruence]. now rewrite F.
Qed.

Lemma parse_block_valid (block : str) (r : rule) :
  parse_block block = Ok (Some r) -> valid r.
Proof.
  intros H. apply parse_block_some in H as [m [e [_ [I [_ [T ->]]]]]].
  split; cbn [r_id r_regex].
  - eapply search_captures; [apply captures_plus | exact I].
  - now apply truthy_nonempty.
Qed.

Lemma regex_match_none (block : str) :
  regex_match block = None -> forall r, parse_block block <> Ok (Some r).
Proof.
  intros H r P. apply parse_block_some in P as [m [e [_ [_ [_ [T _]]]]]].
  unfold regex_pattern in T. rewrite H in T. discriminate.
Qed.

Lemma regex_match_captures (block : str) (m : hit) :
  regex_match block = Some m -> group1 m <> [].
Proof.
  unfold regex_match.
  destruct (search regex_sq3_re block) eqn:E1.
  { intros [= <-].
    eapply search_captures; [apply captures_plus_lazy | exact E1]. }
  destruct (search regex_dq3_re block) eqn:E2.
  { intros [= <-].
    eapply search_captures; [apply captures_plus_lazy | exact E2]. }
  intros E3. eapply search_captures; [apply captures_plus | exact E3].
Qed.

(** The test for a blank block changes nothing: a blank block has no
    identifier. *)
Lemma id_match_not_blank (block : str) (m : hit) :
  id_match block = Some m -> truthy (strip block) = true.
Proof.
  intros I. destruct (strip block) eqn:E; [|reflexivity].
  apply strip_nil in E.
  unfold id_match, id_re in I. rewrite search_absent in I; [discriminate|].
  now apply (blank_no_key 105%N (lit "d")).
Qed.

(** When [float] does not raise, a record is made exactly when identifier
    and pattern are both found. *)
Lemma record_iff_id_and_pattern (block : str) (q : pyfloat) :
  entropy block = Ok q ->
  (exists r, parse_block block = Ok (Some r)) <->
  id_match block <> None /\ regex_match block <> None.
Proof.
  intros Q. split.
  - intros [r P]. apply parse_block_some in P as [m [e [_ [I [_ [T _]]]]]].
    split; [congruence|]. unfold regex_pattern in T.
    destruct (regex_match block); [discriminate | discriminate].
  - intros [I R]. destruct (id_match block) as [m|] eqn:EI; [|congruence].
    destruct (regex_match block) as [m'|] eqn:ER; [|congruence].
    eexists. apply parse_block_some. exists m, q. repeat split; auto.
    + now apply (id_match_not_blank block m).
    + unfold regex_pattern. rewrite ER. apply truthy_nonempty.
      now apply (regex_match_captures block).
Qed.

(** The text handed to [float] is a non-empty run of digits and points. *)
Lemma ent_capture (block : str) (m : hit) :
  search ent_re block = Some m ->
  group1 m <> [] /\ forallb (mem (DigitOr DOT)) (group1 m) = true.
Proof.
  intros H. apply search_sound in H as [pre [_ H]].
  unfold ent_re, assign in H.
  apply in_run_seq in H as [a1 [b1 [_ [H ->]]]].
  apply in_run_seq in H as [a2 [b2 [_ [H ->]]]].
  apply in_run_seq in H as [a3 [b3 [_ [H ->]]]].
  apply in_run_seq in H as [a4 [b4 [_ [H ->]]]].
  cbn [run] in H. apply in_map_iff in H as [b [<- H]].
  unfold group1, join. cbn [grp].
  apply (plus_sound (DigitOr DOT) (rest a4) b). now left.
Qed.

Lemma entropy_absent (block : str) :
  contains (lit "entropy") block = false -> entropy block = Ok (Finite 0).
Proof. intros C. unfold entropy, ent_re. now rewrite search_absent. Qed.

(** ** Entropy *)







Lemma todecimal_ascii (c : N) :
  ((48 <=? c) && (c <=? 57))%N = true -> todecimal c = Some (c - 48)%N.
Proof.
  intros H. apply andb_true_iff in H as [L U].
  unfold todecimal, decimal_zeros. cbn [find]. rewrite L.
  apply N.leb_le in U. replace (c <? 48 + 10)%N with true; [reflexivity|].
  symmetry. apply N.ltb_lt. lia.
Qed.





(** ** The loop *)

Lemma loop_valid (blocks : list str) : forall rules out,
  Forall valid rules -> loop rules blocks = Ok out -> Forall valid out.
Proof.
  induction blocks as [|b bs IH]; intros rules out V; cbn [loop].
  - now intros [= <-].
  - destruct (parse_block b) as [[r|]|] eqn:E; cbn [bind]; [| |discriminate].
    + apply IH. apply Forall_app. split; [assumption|].
      constructor; [|constructor]. eapply parse_block_valid; eauto.
    + now apply IH.
Qed.

(** When every block has an outcome, the list is the records among the
    outcomes, behind those already there. *)
Lemma loop_outcomes (blocks : list str) : forall outs rules,
  Forall2 (fun b o => parse_block b = Ok o) blocks outs ->
  loop rules blocks = Ok (rules ++ records outs).
Proof.
  induction blocks as [|b bs IH]; intros outs rules F; inversion F; subst.
  - simpl. now rewrite app_nil_r.
  - cbn [loop]. match goal with H : parse_block b = _ |- _ => rewrite H end.
    cbn [bind]. destruct y as [r|]; rewrite IH with (outs := l') by assumption.
    + cbn [records flat_map]. now rewrite <- app_assoc.
    + reflexivity.
Qed.

(** When the loop ends, the list is the records of the blocks, in order,
    behind those already there. *)
Lemma loop_records (blocks : list str) : forall rules out,
  loop rules blocks = Ok out -> out = rules ++ flat_map record_of blocks.
Proof.
  induction blocks as [|b bs IH]; intros rules out; cbn [loop flat_map].
  - intros [= <-]. now rewrite app_nil_r.
  - unfold record_of at 1.
    destruct (parse_block b) as [[r|]|]; cbn [bind]; [| |discriminate].
    + intros H. apply IH in H. now rewrite <- app_assoc in H.
    + apply IH.
Qed.

Lemma loop_raise (blocks : list str) (e : exn) : forall rules,
  loop rules blocks = Raise e ->
  exists block, In block blocks /\ parse_block block = Raise e.
Proof.
  induction blocks as [|b bs IH]; intros rules; cbn [loop]; [discriminate|].
  destruct (parse_block b) as [[r|]|e'] eqn:P; cbn [bind].
  - intros H. destruct (IH _ H) as [x [X1 X2]].
    exists x. split; [now right | auto].
  - intros H. destruct (IH _ H) as [x [X1 X2]].
    exists x. split; [now right | auto].
  - intros H. assert (E : e' = e) by congruence. subst e'.
    exists b. split; [now left | assumption].
Qed.

(** Without an entropy value that [float] refuses, the loop ends. *)
Lemma loop_returns (blocks : list str) : forall rules,
  (forall block, In block blocks -> exists q, entropy block = Ok q) ->
  exists out, loop rules blocks = Ok out.
Proof.
  induction blocks as [|b bs IH]; intros rules H; cbn [loop]; [eauto|].
  assert (P : exists o, parse_block b = Ok o).
  { destruct (H b (or_introl eq_refl)) as [q Q]. unfold parse_block.
    destruct (negb _); [eauto|]. destruct (id_match b); [|eauto].
    rewrite Q. cbn [bind]. destruct (truthy _); eauto. }
  destruct P as [o ->]. cbn [bind].
  destruct o; apply IH; intros x X; apply H; now right.
Qed.

(** When the function raises, some block has an identifier and an entropy
    value that [float] refuses. *)
Lemma raise_only_from_float (content : str) (e : exn) :
  parse_gitleaks content = Raise e ->
  exists block m,
    In block (tl (split content DELIM)) /\ id_match block <> None /\
    search ent_re block = Some m /\ float (group1 m) = Raise e.
Proof.
  intros H. apply loop_raise in H as [block [I P]].
  apply parse_block_raise in P as [_ [J [m [S F]]]]. now exists block, m.
Qed.

Lemma parse_gitleaks_returns (content : str) :
  (forall block, In block (tl (split content DELIM)) ->
                 exists q, entropy block = Ok q) ->
  exists out, parse_gitleaks content = Ok out.
Proof. intros H. unfold parse_gitleaks. now apply loop_returns. Qed.

(** ** The list object *)

Lemma list_append_last (h : heap) (l : list rule) (r : rule) :
  list_append (length h) r (h ++ [l]) = h ++ [l ++ [r]].
Proof. induction h as [|x h IH]; simpl; [reflexivity | now rewrite IH]. Qed.

Lemma deref_last (h : heap) (l : list rule) : deref (length h) (h ++ [l]) = l.
Proof. unfold deref. now rewrite app_nth2, Nat.sub_diag by lia. Qed.

(** The loop on the heap does what the loop on values does, to the last
    object only. *)
Lemma loop_on_spec (blocks : list str) : forall h acc,
  exists final,
    loop_on (length h) blocks (h ++ [acc]) =
    (match loop acc blocks with Ok _ => Ok tt | Raise e => Raise e end,
     h ++ [final]) /\
    (forall out, loop acc blocks = Ok out -> final = out).
Proof.
  induction blocks as [|b bs IH]; intros h acc; cbn [loop loop_on].
  - exists acc. split; [reflexivity | now intros out [= <-]].
  - destruct (parse_block b) as [[r|]|e]; cbn [bind].
    + rewrite list_append_last. apply IH.
    + apply IH.
    + exists acc. split; [reflexivity | discriminate].
Qed.

Lemma parse_gitleaks_on_spec (content : str) (h : heap) :
  returned (parse_gitleaks_on content h) = parse_gitleaks content /\
  firstn (length h) (snd (parse_gitleaks_on content h)) = h.
Proof.
  unfold parse_gitleaks_on, parse_gitleaks, new_list.
  destruct (loop_on_spec (tl (split content DELIM)) h []) as [final [-> F]].
  destruct (loop [] (tl (split content DELIM))) as [out|e].
  - cbn [returned snd]. rewrite deref_last, (F out eq_refl).
    split; [reflexivity|].
    now rewrite firstn_app, firstn_all, Nat.sub_diag, app_nil_r.
  - cbn [returned snd]. split; [reflexivity|].
    now rewrite firstn_app, firstn_all, Nat.sub_diag, app_nil_r.
Qed.

(** ** What a match says about the text *)

Lemma Ok_inj {A} (a b : A) : Ok a = Ok b -> a = b.
Proof. congruence. Qed.

(** The hits of [X(body)Y]: the opening text, what [body] took and the
    closing text; the group is what [body] took. *)
Lemma in_run_quoted (op cl : str) (body : regex) (s : str) (h : hit) :
  In h (run (quoted op body cl) s) ->
  exists t b, In b (run body t) /\ whole h = op ++ whole b ++ cl /\
              grp h = Some (whole b).
Proof.
  unfold quoted. intros H.
  apply in_run_seq in H as [a1 [b1 [A1 [H ->]]]].
  apply in_run_seq in H as [a2 [b2 [A2 [B2 ->]]]].
  cbn [run] in A1. destruct (startswith s op); [|contradiction].
  destruct A1 as [<- | []]. cbn [rest] in *.
  cbn [run] in A2. apply in_map_iff in A2 as [b [<- Hb]].
  cbn [run] in B2. cbn [rest] in B2.
  destruct (startswith (rest b) cl); [|contradiction].
  destruct B2 as [<- | []].
  exists (skipn (length op) s), b. repeat split. assumption.
Qed.

(** The hits of a field pattern: the key, blanks, the equals sign, blanks
    and a hit of the value, with its group. *)
Lemma in_run_assign (key : string) (v : regex) (s : str) (h : hit) :
  In h (run (assign key v) s) ->
  exists ws1 ws2 t b,
    blank ws1 = true /\ blank ws2 = true /\ In b (run v t) /\
    whole h = field key ws1 ws2 (whole b) /\ grp h = grp b /\
    rest h = rest b.
Proof.
  unfold assign. intros H.
  apply in_run_seq in H as [a1 [b1 [A1 [H ->]]]].
  apply in_run_seq in H as [a2 [b2 [A2 [H ->]]]].
  apply in_run_seq in H as [a3 [b3 [A3 [H ->]]]].
  apply in_run_seq in H as [a4 [b [A4 [H ->]]]].
  cbn [run] in A1, A2, A3, A4.
  destruct (startswith s (lit key)); [|contradiction].
  destruct A1 as [<- | []]. cbn [rest] in *.
  apply in_map_iff in A2 as [[u2 t2] [<- G2]].
  apply greedy_sound in G2 as [_ G2].
  cbn [plain fst snd rest] in *.
  destruct (startswith t2 (lit "=")); [|contradiction].
  destruct A3 as [<- | []]. cbn [rest] in *.
  apply in_map_iff in A4 as [[u4 t4] [<- G4]].
  apply greedy_sound in G4 as [_ G4].
  cbn [plain fst snd rest] in *.
  exists u2, u4, t4, b. repeat split; try assumption.
  unfold join. cbn [grp plain]. now destruct (grp b).
Qed.

(** What [search] finds for a field pattern is written in the text. *)
Lemma search_written (key : string) (v : regex) (s : str) (m : hit) :
  search (assign key v) s = Some m ->
  exists t b, In b (run v t) /\ grp m = grp b /\
              written s key (whole b) (rest m).
Proof.
  intros H. apply search_sound in H as [pre [S H]].
  apply in_run_assign in H as [ws1 [ws2 [t [b [H1 [H2 [Hb [W [G _]]]]]]]]].
  exists t, b. repeat split; try assumption.
  exists pre, ws1, ws2. rewrite <- W. auto.
Qed.

(** A quoted field found by [search]: the value stands in the text between
    its delimiters, and is a non-empty run of the characters the group
    repeats. *)
Lemma search_quoted (key : string) (op cl : str) (cs : cset) (body : regex)
    (s : str) (m : hit) :
  body = Plus cs \/ body = PlusLazy cs ->
  search (assign key (quoted op body cl)) s = Some m ->
  written s key (op ++ group1 m ++ cl) (rest m) /\
  group1 m <> [] /\ forallb (mem cs) (group1 m) = true.
Proof.
  intros B H. apply search_written in H as [t [b [Hb [G W]]]].
  apply in_run_quoted in Hb as [t' [b' [Hb' [E G']]]].
  unfold group1. rewrite G, G'. rewrite E in W. split; [exact W|].
  destruct (plus_sound cs t' b') as [_ P]; [|exact P].
  destruct B as [-> | ->]; auto.
Qed.

(** ** The first hit *)

(** The first element of a [flat_map] comes from the first element that
    gives any. *)
Lemma flat_map_first {A B} (f : A -> list B) (l : list A) (h : B)
    (more : list B) :
  flat_map f l = h :: more -> exists a more', In a l /\ f a = h :: more'.
Proof.
  induction l as [|a l IH]; cbn [flat_map]; [discriminate|].
  destruct (f a) as [|h' more'] eqn:E.
  - intros H. destruct (IH H) as [a' [m' [I F]]].
    exists a', m'. split; [now right | assumption].
  - cbn [app]. intros H. exists a, more'. split; [now left|]. congruence.
Qed.

(** The first hit of a sequence ends with the first hit of its second
    part, behind some hit of the first. *)
Lemma run_seq_first (r1 r2 : regex) (s : str) (h : hit) (more : list hit) :
  run (r1 ⋅ r2) s = h :: more ->
  exists a b more',
    In a (run r1 s) /\ run r2 (rest a) = b :: more' /\ h = join a b.
Proof.
  cbn [run]. intros H.
  apply flat_map_first in H as [a [more' [I F]]].
  destruct (run r2 (rest a)) as [|b bs] eqn:E; [discriminate|].
  exists a, b, bs. repeat split; try assumption. cbn [map] in F. congruence.
Qed.

(** A lazy repetition and its continuation: the first hit takes the
    shortest run after which the continuation succeeds. *)
Lemma lazy_first (cs : cset) : forall (t : str) (F : str * str -> list hit)
    (h : hit) (more : list hit),
  flat_map F (lazy cs t) = h :: more ->
  exists u x more',
    t = u ++ x /\ F (u, x) = h :: more' /\
    forall u1 u2, u = u1 ++ u2 -> u2 <> [] -> F (u1, u2 ++ x) = [].
Proof.
  induction t as [|c t IH]; intros F h more H.
  - cbn [lazy flat_map] in H. rewrite app_nil_r in H.
    exists [], [], more. repeat split; try assumption.
    intros u1 u2 E N0. now destruct u1, u2.
  - cbn [lazy flat_map] in H.
    destruct (F ([], c :: t)) as [|h' more'] eqn:E.
    + cbn [app] in H. destruct (mem cs c); [|discriminate].
      rewrite flat_map_map in H.
      apply (IH (fun ut => F (let '(u, t') := ut in (c :: u, t')))) in H
        as [u [x [m' [-> [Hx Hmin]]]]].
      exists (c :: u), x, m'. repeat split; try assumption.
      intros u1 u2 E' N0. destruct u1 as [|c1 u1]; cbn [app] in E'.
      * subst u2. exact E.
      * injection E' as <- ->. now apply (Hmin u1 u2).
    + exists [], (c :: t), more'. repeat split.
      * cbn [app] in H. congruence.
      * intros u1 u2 E' N0. now destruct u1, u2.
Qed.

(** The first hit of [(cs+?)Y]: the group ends where the closing text
    first starts, after one character at least. *)
Lemma run_group_lazy_first (cs : cset) (cl t : str) (h : hit)
    (more : list hit) :
  run (Group (PlusLazy cs) ⋅ Lit cl) t = h :: more ->
  exists p,
    grp h = Some p /\ t = p ++ cl ++ rest h /\
    forall u v, p = u ++ v -> u <> [] -> v <> [] ->
                startswith (v ++ cl ++ rest h) cl = false.
Proof.
  cbn [run]. destruct t as [|c t]; cbn [one_then]; [discriminate|].
  destruct (mem cs c); [|discriminate].
  rewrite !map_map, flat_map_map. intros H.
  apply lazy_first in H as [u [x [more' [-> [Hx Hmin]]]]].
  cbn [plain fst snd whole rest] in Hx.
  destruct (startswith x cl) eqn:S; [|discriminate].
  cbn [map] in Hx. injection Hx as <- _. cbn [join grp rest whole].
  apply startswith_skipn in S.
  exists (c :: u). split; [reflexivity|]. split.
  - cbn [app]. now rewrite <- S.
  - intros u1 v E N1 N2. destruct u1 as [|c1 u1]; [congruence|].
    cbn [app] in E. injection E as <- ->.
    specialize (Hmin u1 v eq_refl N2).
    cbn [plain fst snd whole rest] in Hmin.
    rewrite <- S. destruct (startswith (v ++ x) cl); [discriminate|].
    reflexivity.
Qed.

(** The first hit of a field pattern with a lazy group. *)
Lemma search_lazy_shortest (key : string) (op cl : str) (cs : cset)
    (s : str) (m : hit) :
  search (assign key (quoted op (PlusLazy cs) cl)) s = Some m ->
  forall u v, group1 m = u ++ v -> u <> [] -> v <> [] ->
              startswith (v ++ cl ++ rest m) cl = false.
Proof.
  intros H. assert (F : exists t more,
    run (assign key (quoted op (PlusLazy cs) cl)) t = m :: more).
  { clear - H. induction s as [|c s IH]; cbn [search] in H.
    - destruct (run _ []) as [|h hs] eqn:E; [discriminate|].
      exists [], hs. congruence.
    - destruct (run _ (c :: s)) as [|h hs] eqn:E; [now apply IH|].
      exists (c :: s), hs. congruence. }
  destruct F as [t [more F]]. unfold assign, quoted in F.
  apply run_seq_first in F as [a1 [b1 [? [_ [F ->]]]]].
  apply run_seq_first in F as [a2 [b2 [? [_ [F ->]]]]].
  apply run_seq_first in F as [a3 [b3 [? [_ [F ->]]]]].
  apply run_seq_first in F as [a4 [b4 [? [_ [F ->]]]]].
  apply run_seq_first in F as [a5 [b5 [? [_ [F ->]]]]].
  apply run_group_lazy_first in F as [p [G [_ Hmin]]].
  unfold group1. cbn [join grp rest]. rewrite G. exact Hmin.
Qed.

(** ** Places *)

Lemma no_match_step (r : regex) (s : str) (from n : nat) :
  no_match r s from (S n) =
  negb (matches_at r s from) && no_match r s (S from) n.
Proof. reflexivity. Qed.

Lemma no_match_cons (r : regex) (c : char) (s : str) (n : nat) :
  forall from, no_match r (c :: s) (S from) n = no_match r s from n.
Proof.
  unfold no_match. induction n as [|n IH]; intros from; [reflexivity|].
  cbn [seq forallb]. now rewrite IH.
Qed.

(** Where nothing matches, [search] passes. *)
Lemma search_skip (r : regex) (pre t : str) :
  no_match r (pre ++ t) 0 (length pre) = true ->
  search r (pre ++ t) = search r t.
Proof.
  induction pre as [|c pre IH]; intros H; [reflexivity|].
  cbn [length app] in *. rewrite no_match_step, no_match_cons in H.
  apply andb_true_iff in H as [H0 H].
  rewrite search_next; [now apply IH|].
  unfold matches_at in H0. cbn [skipn] in H0.
  now destruct (run r (c :: pre ++ t)).
Qed.

(** Nothing found: nothing matches anywhere. *)
Lemma search_none (r : regex) (s : str) :
  search r s = None <-> no_match r s 0 (S (length s)) = true.
Proof.
  induction s as [|c s IH].
  - unfold no_match, matches_at. cbn [search length seq forallb skipn].
    destruct (run r []); cbn [negb andb]; split; congruence.
  - cbn [search length]. rewrite no_match_step, no_match_cons.
    unfold matches_at. cbn [skipn].
    destruct (run r (c :: s)); cbn [negb andb]; [exact IH|].
    split; congruence.
Qed.

(** What [search] reports is the first hit at the first position that has
    one. *)
Lemma search_first (r : regex) (s : str) (h : hit) :
  search r s = Some h ->
  exists pre more,
    s = pre ++ whole h ++ rest h /\
    run r (whole h ++ rest h) = h :: more /\
    no_match r s 0 (length pre) = true.
Proof.
  induction s as [|c s IH]; cbn [search].
  - destruct (run r []) as [|h' more] eqn:E; [discriminate|].
    intros [= ->]. exists [], more.
    assert (H : In h (run r [])) by (rewrite E; now left).
    rewrite <- (run_sound _ _ _ H). auto.
  - destruct (run r (c :: s)) as [|h' more] eqn:E.
    + intros H. destruct (IH H) as [pre [more [-> [R N0]]]].
      exists (c :: pre), more. repeat split; try assumption.
      cbn [length app]. rewrite no_match_step, no_match_cons, N0.
      unfold matches_at. cbn [skipn]. now rewrite E.
    + intros [= ->]. exists [], more.
      assert (H : In h (run r (c :: s))) by (rewrite E; now left).
      rewrite <- (run_sound _ _ _ H). auto.
Qed.

(** A hit somewhere: [search] finds something. *)
Lemma search_some (r : regex) (pre t : str) :
  run r t <> [] -> search r (pre ++ t) <> None.
Proof.
  intros H. induction pre as [|c pre IH]; cbn [app].
  - destruct t; cbn [search]; destruct (run r _); congruence.
  - cbn [search].
    destruct (run r (c :: pre ++ t)); [exact IH | discriminate].
Qed.

(** [closes_first], split by split. *)
Lemma closes_first_spec (q p post : str) :
  closes_first q p post = true <->
  forall u v, p = u ++ v -> u <> [] -> v <> [] ->
              startswith (v ++ q ++ post) q = false.
Proof.
  unfold closes_first. rewrite forallb_forall. split.
  - intros H u v -> Hu Hv.
    specialize (H (length u)). rewrite skipn_app, skipn_all, Nat.sub_diag in H.
    cbn [skipn app] in H. apply negb_true_iff, H.
    apply in_seq. rewrite length_app.
    destruct u; [congruence|]. destruct v; [congruence|]. cbn [length]. lia.
  - intros H k Hk. apply in_seq in Hk. apply negb_true_iff.
    apply (H (firstn k p)).
    + symmetry. apply firstn_skipn.
    + intros E. apply (f_equal (@length _)) in E.
      rewrite length_firstn in E. cbn [length] in E. lia.
    + intros E. apply (f_equal (@length _)) in E.
      rewrite length_skipn in E. cbn [length] in E. lia.
Qed.

Lemma no_match_app (r : regex) (s : str) (a b : nat) : forall from,
  no_match r s from (a + b) =
  no_match r s from a && no_match r s (from + a) b.
Proof.
  unfold no_match. intros from. now rewrite seq_app, forallb_app.
Qed.

(** Nothing matches anywhere when nothing matches at [k] nor elsewhere. *)
Lemma search_nowhere (r : regex) (s : str) (k : nat) :
  k <= length s -> matches_at r s k = false ->
  nowhere_else r s k = true -> search r s = None.
Proof.
  intros L M H. apply andb_true_iff in H as [H1 H2]. apply search_none.
  replace (S (length s)) with (k + (1 + (length s - k))) by lia.
  rewrite no_match_app, H1. cbn [andb plus].
  rewrite no_match_step, M. exact H2.
Qed.

(** The first field with a value the pattern accepts, where the pattern
    matches at no earlier position. *)
Lemma search_at (key : string) (v : regex) (pre ws1 ws2 x : str) (h : hit)
    (more : list hit) :
  no_match (assign key v) (pre ++ field key ws1 ws2 x) 0 (length pre) = true ->
  blank ws1 = true -> blank ws2 = true ->
  stops Space x = true -> rejects Space v ->
  run v x = h :: more ->
  search (assign key v) (pre ++ field key ws1 ws2 x) =
  Some (prefixed (lit key ++ ws1 ++ lit "=" ++ ws2) h).
Proof.
  intros N0 H1 H2 Sx R E. rewrite search_skip by exact N0.
  eapply search_here. rewrite run_assign by assumption. rewrite E.
  reflexivity.
Qed.

(** A field with a value the pattern refuses: no match at its place. *)
Lemma no_match_at (key : string) (v : regex) (pre ws1 ws2 x : str) :
  blank ws1 = true -> blank ws2 = true ->
  stops Space x = true -> rejects Space v ->
  run v x = [] ->
  matches_at (assign key v) (pre ++ field key ws1 ws2 x) (length pre) = false.
Proof.
  intros H1 H2 Sx R E. unfold matches_at.
  rewrite skipn_app, skipn_all, Nat.sub_diag. cbn [skipn app].
  rewrite run_assign by assumption. now rewrite E.
Qed.

(** *** Every way of taking characters is tried *)

Lemma greedy_in (cs : cset) (u t : str) :
  forallb (mem cs) u = true -> In (u, t) (greedy cs (u ++ t)).
Proof.
  induction u as [|c u IH]; intros H.
  - cbn [app]. destruct t as [|c t]; cbn [greedy]; [now left|].
    destruct (mem cs c); [apply in_or_app; right|]; now left.
  - cbn [forallb] in H. apply andb_true_iff in H as [Hc H].
    cbn [app greedy]. rewrite Hc. apply in_or_app. left.
    apply in_map_iff. exists (u, t). auto.
Qed.

Lemma lazy_in (cs : cset) (u t : str) :
  forallb (mem cs) u = true -> In (u, t) (lazy cs (u ++ t)).
Proof.
  induction u as [|c u IH]; intros H.
  - cbn [app]. destruct t; now left.
  - cbn [forallb] in H. apply andb_true_iff in H as [Hc H].
    cbn [app lazy]. rewrite Hc. right.
    apply in_map_iff. exists (u, t). auto.
Qed.

(** A non-empty text of the right characters between its quotes: the
    quoted pattern has a hit there. *)
Lemma run_quoted_some (q : str) (cs : cset) (body : regex) (p post : str) :
  body = Plus cs \/ body = PlusLazy cs ->
  p <> [] -> forallb (mem cs) p = true ->
  run (quoted q body q) (q ++ p ++ q ++ post) <> [].
Proof.
  intros B Hp Hc.
  assert (I : In (Hit (q ++ p ++ q) (Some p) post)
                 (run (quoted q body q) (q ++ p ++ q ++ post))).
  { unfold quoted. apply in_run_seq.
    exists (Hit q None (p ++ q ++ post)), (Hit (p ++ q) (Some p) post).
    split; [|split; [|reflexivity]].
    - cbn [run]. rewrite startswith_app, skipn_app, skipn_all, Nat.sub_diag.
      now left.
    - cbn [rest]. apply in_run_seq.
      exists (Hit p (Some p) (q ++ post)), (Hit q None post).
      split; [|split; [|reflexivity]].
      + cbn [run]. apply in_map_iff. exists (Hit p None (q ++ post)).
        split; [reflexivity|].
        destruct p as [|c p]; [congruence|].
        cbn [forallb] in Hc. apply andb_true_iff in Hc as [Hc0 Hc].
        destruct B as [-> | ->]; cbn [run app one_then]; rewrite Hc0;
          apply in_map_iff; exists (c :: p, q ++ post);
          (split; [reflexivity|]); apply in_map_iff; exists (p, q ++ post);
          (split; [reflexivity|]); [now apply greedy_in | now apply lazy_in].
      + cbn [run rest].
        rewrite startswith_app, skipn_app, skipn_all, Nat.sub_diag.
        now left. }
  intros E. rewrite E in I. destruct I.
Qed.

(** ** The forms of a pattern *)

Section Form.

Variables (q0 : char) (q : str) (cs : cset) (body : regex).
Hypothesis quote_no_blank : isspace q0 = false.
Hypothesis body_repeats :
  body = PlusLazy cs \/ (body = Plus cs /\ mem cs q0 = false).

Let r := assign "regex" (quoted (q0 :: q) body (q0 :: q)).

(** A text of the form is matched somewhere. *)
Lemma has_form_search (block : str) :
  has_form (q0 :: q) cs block -> search r block <> None.
Proof.
  intros [p [post [[pre [ws1 [ws2 [-> [H1 H2]]]]] [Hp Hc]]]].
  rewrite field_app. apply search_some. unfold r.
  rewrite run_assign; try assumption.
  - intros E. apply map_eq_nil in E. revert E.
    rewrite <- !app_assoc.
    apply (run_quoted_some (q0 :: q) cs body p post); try assumption.
    destruct body_repeats as [B | [B _]]; auto.
  - cbn [app stops mem]. now rewrite quote_no_blank.
  - unfold quoted. apply rejects_lit. exact quote_no_blank.
Qed.

(** What is matched has the form. *)
Lemma search_has_form (block : str) (m : hit) :
  search r block = Some m -> has_form (q0 :: q) cs block.
Proof.
  intros H. apply (search_quoted "regex" _ _ cs) in H as [W [Hp Hc]].
  - now exists (group1 m), (rest m).
  - destruct body_repeats as [B | [B _]]; auto.
Qed.

Lemma no_form_no_match (block : str) :
  ~ has_form (q0 :: q) cs block -> search r block = None.
Proof.
  intros H. destruct (search r block) as [m|] eqn:E; [|reflexivity].
  destruct H. now apply (search_has_form block m).
Qed.

(** The first text of the form, up to its first closing quotes: this is
    what [search] reports. *)
Lemma first_in_form_search (block p : str) :
  first_in_form (q0 :: q) cs r block p ->
  exists m, search r block = Some m /\ group1 m = p.
Proof.
  intros [pre [ws1 [ws2 [post [-> [H1 [H2 [Hp [Hc [F N0]]]]]]]]]].
  rewrite field_app in *. rewrite <- !app_assoc in *.
  assert (E : exists more,
             run (quoted (q0 :: q) body (q0 :: q))
                 ((q0 :: q) ++ p ++ (q0 :: q) ++ post) =
             Hit ((q0 :: q) ++ p ++ q0 :: q) (Some p) post :: more).
  { destruct body_repeats as [-> | [-> M]].
    - apply run_quoted_lazy; try assumption.
      now apply closes_first_spec.
    - exists []. now apply run_quoted_greedy. }
  destruct E as [more E]. eexists. split.
  - unfold r. eapply search_at; try eassumption.
    + cbn [app stops mem]. now rewrite quote_no_blank.
    + unfold quoted. apply rejects_lit. exact quote_no_blank.
  - reflexivity.
Qed.

(** What [search] reports is the first text of the form, up to its first
    closing quotes. *)
Lemma search_first_in_form (block : str) (m : hit) :
  search r block = Some m -> first_in_form (q0 :: q) cs r block (group1 m).
Proof.
  intros H. pose proof H as H'.
  apply search_first in H as [pre [more [S [R N0]]]].
  assert (I : In m (run r (whole m ++ rest m))) by (rewrite R; now left).
  apply in_run_assign in I as [ws1 [ws2 [t [b [H1 [H2 [Hb [W [G _]]]]]]]]].
  apply in_run_quoted in Hb as [t' [b' [Hb' [E G']]]].
  assert (P : whole b' <> [] /\ forallb (mem cs) (whole b') = true).
  { destruct (plus_sound cs t' b') as [_ P]; [|exact P].
    destruct body_repeats as [-> | [-> _]]; auto. }
  destruct P as [P1 P2].
  assert (Gm : group1 m = whole b') by (unfold group1; now rewrite G, G').
  rewrite Gm. exists pre, ws1, ws2, (rest m).
  rewrite <- E, <- W. repeat split; try assumption.
  apply closes_first_spec.
  destruct body_repeats as [B | [B M]].
  - rewrite <- Gm. subst body.
    exact (search_lazy_shortest "regex" (q0 :: q) (q0 :: q) cs block m H').
  - intros u v E' Hu Hv. destruct v as [|c v]; [congruence|].
    apply startswith_head. intros X. subst c.
    rewrite E', forallb_app in P2. apply andb_true_iff in P2 as [_ P2].
    cbn [forallb] in P2. now rewrite M in P2.
Qed.

End Form.
(** * Part IV.  The properties *)

Example sample_ok : parse_gitleaks sample = Ok [sample_rule].
Proof. vm_compute. reflexivity. Qed.

(** The matcher on the patterns of the script: blanks around the equals
    sign are optional and may be of any kind; a key is found inside a longer
    word; a lazy group ends at the first closing delimiter; the point
    matches no newline, a negated set does; [search] goes on to a later key
    when the first has no value. *)
Example matcher_examples :
  option_map group1 (search id_re (lit "id=" ++ [DQ] ++ lit "x" ++ [DQ]))
  = Some (lit "x") /\
  option_map group1
    (search id_re (lit "grid " ++ [9%N] ++ lit "=" ++ [NL; DQ] ++ lit "x y"
                   ++ [DQ]))
  = Some (lit "x y") /\
  option_map group1 (search regex_sq3_re (lit "regex = '''a'''b'''"))
  = Some (lit "a") /\
  option_map group1 (search kw_re (lit "keywords = [a]b]")) = Some (lit "a") /\
  search regex_sq3_re (lit "regex = '''a" ++ [NL] ++ lit "b'''") = None /\
  option_map group1
    (search regex_dq_re (lit "regex = " ++ [DQ] ++ lit "a" ++ [NL] ++ lit "b"
                         ++ [DQ]))
  = Some (lit "a" ++ [NL] ++ lit "b") /\
  option_map group1 (search ent_re (lit "entropy = x 4, entropy=7"))
  = Some (lit "7").
Proof. repeat apply conj; vm_compute; reflexivity. Qed.

(** ** Failure *)

(** C1, at the input where the code departs from it.  The function is to
    return a list for every text.  The entropy pattern captures any run of
    digits and points; [float] refuses a run without a digit or with two
    points, and nothing catches its [ValueError]: on a block with an
    identifier and the line entropy = . the function raises.  By
    [raise_only_from_float] this is the only way it fails, and by
    [parse_gitleaks_returns] it returns whenever no block has such a
    value. *)
Theorem lone_point_raises : parse_gitleaks lone_point = Raise ValueError.
Proof. vm_compute. reflexivity. Qed.

(** ** The records *)

(** C2. Every record of the list [parse_gitleaks] returns has a non-empty
    identifier and a non-empty pattern. *)
Theorem records_have_id_and_pattern (content : str) (rules : list rule) :
  parse_gitleaks content = Ok rules ->
  Forall (fun r => r_id r <> [] /\ r_regex r <> []) rules.
Proof.
  unfold parse_gitleaks. intros H.
  eapply loop_valid; [|exact H]. constructor.
Qed.

Lemma records_have_id_and_pattern_witness :
  Forall (fun r => r_id r <> [] /\ r_regex r <> []) [sample_rule].
Proof.
  apply (records_have_id_and_pattern sample). vm_compute. reflexivity.
Defined.

(** ** Entropy *)

(** A run of digits and points is a number for [float] when it has a digit
    and at most one point, no more. *)
Example float_accepts :
  float (lit "4.5") = Ok (Finite (9 # 2)) /\
  float (lit "6.0") = Ok (Finite 6) /\
  float (lit "7") = Ok (Finite 7) /\ float (lit "1.") = Ok (Finite 1) /\
  float (lit ".5") = Ok (Finite (1 # 2)).
Proof. repeat apply conj; vm_compute; reflexivity. Qed.

(** The number read is rounded to binary64: one tenth is no binary64
    number, a numeral of 310 digits gives infinity, and one that starts
    with four hundred zeros behind the point gives 0.0. *)
Example float_rounds :
  float (lit "0.1") = Ok (Finite (3602879701896397 # 36028797018963968)) /\
  float (lit "1" ++ repeat 48%N 309) = Ok Infinity /\
  float (lit "0." ++ repeat 48%N 400 ++ lit "1") = Ok (Finite 0).
Proof. repeat apply conj; vm_compute; reflexivity. Qed.

Example float_refuses :
  float (lit ".") = Raise ValueError /\
  float (lit "1.2.3") = Raise ValueError /\
  float (lit "..") = Raise ValueError.
Proof. repeat apply conj; vm_compute; reflexivity. Qed.

Example entropy_six :
  entropy (lit "id = x" ++ [NL] ++ lit "entropy = 6.0" ++ [NL])
  = Ok (Finite 6).
Proof. vm_compute. reflexivity. Qed.

(** C3, at the input where the code departs from it.  The entropy is to be
    read from digits with at most one point, and to be 0.0 where the value
    cannot be read.  The pattern takes 1.2.3 as the value, [float] refuses
    it, and the block gives no entropy at all, 0.0 or other: the function
    raises.  In general the entropy is [float] of the longest run of digits
    and points behind the first entropy key ([entropy_of_run]), which is
    the binary64 number nearest to the number written when the run is a
    numeral ([float_numeral]) and an exception otherwise; without the key
    it is 0.0 ([entropy_absent]). *)
Theorem two_points_raise :
  option_map group1 (search ent_re two_points) = Some (lit "1.2.3") /\
  entropy two_points = Raise ValueError /\
  parse_gitleaks (DELIM ++ two_points) = Raise ValueError.
Proof. repeat apply conj; vm_compute; reflexivity. Qed.

(** ** The pattern *)

(** C4, as stated, fails: only within one quoting form is the first
    occurrence the one honored.  A triple-quoted pattern anywhere in the
    block comes before a plain one that stands earlier. *)
Lemma later_triple_quoted_pattern_wins :
  option_map group1 (search regex_dq_re two_forms) = Some (lit "a") /\
  regex_pattern two_forms = lit "b" /\
  regex_pattern two_forms <> lit "a".
Proof.
  split; [reflexivity|]. split; [reflexivity|].
  vm_compute. discriminate.
Qed.

(** C4, amended.  The three forms are tried one after the other, each over
    the whole block; within the form that applies the first occurrence is
    the one honored, and its capture is the shortest.  So the first
    pattern in triple single quotes gives the result, up to its first
    closing quotes, whatever stands before and behind it; the first one in
    triple double quotes does when the block has no pattern in triple
    single quotes; the first plain one does when the block has no
    triple-quoted pattern, as in a block with two plain patterns. *)
Theorem first_pattern_shortest_capture :
  (forall block p,
      first_in_form [SQ; SQ; SQ] Dot regex_sq3_re block p ->
      regex_pattern block = p) /\
  (forall block p,
      search regex_sq3_re block = None ->
      first_in_form [DQ; DQ; DQ] Dot regex_dq3_re block p ->
      regex_pattern block = p) /\
  (forall block p,
      search regex_sq3_re block = None ->
      search regex_dq3_re block = None ->
      first_in_form [DQ] (NoneOf DQ) regex_dq_re block p ->
      regex_pattern block = p).
Proof.
  unfold regex_pattern, regex_match. repeat apply conj.
  - intros block p F.
    apply (first_in_form_search SQ [SQ; SQ] Dot (PlusLazy Dot) eq_refl
             (or_introl eq_refl)) in F as [m [S G]].
    fold regex_sq3_re in S. now rewrite S.
  - intros block p N1 F.
    apply (first_in_form_search DQ [DQ; DQ] Dot (PlusLazy Dot) eq_refl
             (or_introl eq_refl)) in F as [m [S G]].
    fold regex_dq3_re in S. now rewrite N1, S.
  - intros block p N1 N2 F.
    apply (first_in_form_search DQ [] (NoneOf DQ) (Plus (NoneOf DQ)) eq_refl
             (or_intror (conj eq_refl eq_refl))) in F as [m [S G]].
    fold regex_dq_re in S. now rewrite N1, N2, S.
Qed.

Lemma first_pattern_shortest_capture_witness :
  regex_pattern three_patterns = lit "b" /\
  regex_pattern two_dq3 = lit "a" ++ [DQ] ++ lit "b" /\
  regex_pattern two_plain = lit "a".
Proof.
  destruct first_pattern_shortest_capture as [H1 [H2 H3]].
  repeat apply conj.
  - apply H1.
    exists (lit "regex = " ++ [DQ] ++ lit "a" ++ [DQ] ++ [NL]), [SP], [SP],
           ([NL] ++ lit "regex = '''c'''").
    repeat apply conj; first [reflexivity | discriminate].
  - apply H2; [reflexivity|].
    exists [], [SP], [SP],
           ([NL] ++ lit "regex = " ++ [DQ; DQ; DQ] ++ lit "c" ++ [DQ; DQ; DQ]).
    repeat apply conj; first [reflexivity | discriminate].
  - apply H3; [reflexivity | reflexivity |].
    exists (lit "description = " ++ [DQ] ++ lit "uses '''" ++ [DQ] ++ [NL]),
           [SP], [SP], ([NL] ++ lit "regex = " ++ [DQ] ++ lit "b" ++ [DQ]).
    repeat apply conj; first [reflexivity | discriminate].
Defined.

(** C5. The pattern is looked for in three forms, in this order: triple
    single quotes, triple double quotes, plain double quotes.  A form
    applies when, somewhere in the block, regex is followed by blanks, the
    equals sign, blanks and a quoted text of that form, which is not empty
    and, between triple quotes, holds no newline.  The first form that
    applies gives the pattern: the first text of that form in the block, up
    to its first closing quotes.  A pattern in triple single quotes thus
    ends at triple single quotes, never at a double quote inside it: the
    block regex = '''fooQbar''' (Q a double quote) gives fooQbar.  When no
    form applies there is no pattern. *)
Theorem pattern_fallback_order (block : str) :
  (has_form [SQ; SQ; SQ] Dot block ->
   first_in_form [SQ; SQ; SQ] Dot regex_sq3_re block (regex_pattern block)) /\
  (~ has_form [SQ; SQ; SQ] Dot block ->
   has_form [DQ; DQ; DQ] Dot block ->
   first_in_form [DQ; DQ; DQ] Dot regex_dq3_re block (regex_pattern block)) /\
  (~ has_form [SQ; SQ; SQ] Dot block ->
   ~ has_form [DQ; DQ; DQ] Dot block ->
   has_form [DQ] (NoneOf DQ) block ->
   first_in_form [DQ] (NoneOf DQ) regex_dq_re block (regex_pattern block)) /\
  (~ has_form [SQ; SQ; SQ] Dot block ->
   ~ has_form [DQ; DQ; DQ] Dot block ->
   ~ has_form [DQ] (NoneOf DQ) block ->
   regex_pattern block = []) /\
  regex_pattern (lit "regex = '''foo" ++ [DQ] ++ lit "bar'''")
  = lit "foo" ++ [DQ] ++ lit "bar".
Proof.
  assert (T1 := no_form_no_match SQ [SQ; SQ] Dot (PlusLazy Dot)
                  (or_introl eq_refl) block).
  assert (T2 := no_form_no_match DQ [DQ; DQ] Dot (PlusLazy Dot)
                  (or_introl eq_refl) block).
  assert (T3 := no_form_no_match DQ [] (NoneOf DQ) (Plus (NoneOf DQ))
                  (or_intror (conj eq_refl eq_refl)) block).
  fold regex_sq3_re in T1. fold regex_dq3_re in T2. fold regex_dq_re in T3.
  unfold regex_pattern, regex_match. repeat apply conj.
  - intros F.
    apply (has_form_search SQ [SQ; SQ] Dot (PlusLazy Dot) eq_refl
             (or_introl eq_refl)) in F.
    fold regex_sq3_re in F.
    destruct (search regex_sq3_re block) as [m|] eqn:S; [|congruence].
    exact (search_first_in_form SQ [SQ; SQ] Dot (PlusLazy Dot)
             (or_introl eq_refl) block m S).
  - intros N1 F. rewrite (T1 N1).
    apply (has_form_search DQ [DQ; DQ] Dot (PlusLazy Dot) eq_refl
             (or_introl eq_refl)) in F.
    fold regex_dq3_re in F.
    destruct (search regex_dq3_re block) as [m|] eqn:S; [|congruence].
    exact (search_first_in_form DQ [DQ; DQ] Dot (PlusLazy Dot)
             (or_introl eq_refl) block m S).
  - intros N1 N2 F. rewrite (T1 N1), (T2 N2).
    apply (has_form_search DQ [] (NoneOf DQ) (Plus (NoneOf DQ)) eq_refl
             (or_intror (conj eq_refl eq_refl))) in F.
    fold regex_dq_re in F.
    destruct (search regex_dq_re block) as [m|] eqn:S; [|congruence].
    exact (search_first_in_form DQ [] (NoneOf DQ) (Plus (NoneOf DQ))
             (or_intror (conj eq_refl eq_refl)) block m S).
  - intros N1 N2 N3. now rewrite (T1 N1), (T2 N2), (T3 N3).
  - reflexivity.
Qed.

Lemma pattern_fallback_order_witness :
  first_in_form [SQ; SQ; SQ] Dot regex_sq3_re quote_inside
    (regex_pattern quote_inside).
Proof.
  destruct (pattern_fallback_order quote_inside) as [H _]. apply H.
  exists (lit "a" ++ [DQ] ++ lit "b"),
         ([NL] ++ lit "regex = " ++ [DQ] ++ lit "c" ++ [DQ]).
  split; [|split; [discriminate | reflexivity]].
  exists (lit "id = x" ++ [NL]), [SP], [SP].
  repeat apply conj; reflexivity.
Defined.

(** The two other forms, each with a quote inside that does not end it. *)
Example pattern_forms :
  regex_pattern (lit "regex = " ++ [DQ; DQ; DQ] ++ lit "x" ++ [DQ] ++
                 lit "y" ++ [DQ; DQ; DQ]) = lit "x" ++ [DQ] ++ lit "y" /\
  regex_pattern (lit "regex = " ++ [DQ] ++ lit "it's" ++ [DQ]) = lit "it's".
Proof. split; vm_compute; reflexivity. Qed.

(** ** Which blocks give a record *)

(** C6, at the inputs where the code departs from it.  A record is to be
    made of a block exactly when identifier and pattern are both found, and
    the loop is to go on to the next block otherwise.  In [two_points] both
    are found, yet [float] raises on its entropy: no record is made of it.
    In [point_block] no pattern is found, and the block is not passed over:
    [float] raises there too.  Either way the well-formed block behind is
    never reached.  When [float] does not raise the claim holds:
    [record_iff_id_and_pattern]. *)
Theorem found_but_not_recorded :
  (option_map group1 (id_match two_points) = Some (lit "a") /\
   option_map group1 (regex_match two_points) = Some (lit "b") /\
   parse_block two_points = Raise ValueError) /\
  (option_map group1 (id_match point_block) = Some (lit "a") /\
   regex_match point_block = None /\
   parse_block point_block = Raise ValueError) /\
  parse_block good_block = Ok (Some good_rule) /\
  parse_gitleaks (DELIM ++ two_points ++ DELIM ++ good_block)
  = Raise ValueError /\
  parse_gitleaks (DELIM ++ point_block ++ DELIM ++ good_block)
  = Raise ValueError.
Proof. repeat apply conj; vm_compute; reflexivity. Qed.

(** ** Keywords *)

(** C7, as stated, fails: an empty string in the list is not a keyword and
    shifts the pairing of the quotes behind it, so that the text between
    two strings is taken for a keyword and the last string is lost. *)
Lemma empty_keyword_shifts_quotes :
  keywords kw_with_empty = [lit "a"; lit ", "] /\
  ~ In (lit "b") (keywords kw_with_empty).
Proof.
  split; [reflexivity|].
  vm_compute. intros [H | [H | []]]; discriminate.
Qed.

(** C7, amended.  Where the first keywords key of a block is followed by a
    bracketed list whose quoted strings are non-empty, with no double quote
    between or inside them and no closing bracket before the end of the
    list, the keywords are these strings, in their order.  A block without
    the key has no keywords, and so has a block whose only keywords key is
    followed by an empty bracket. *)
Theorem keywords_in_order :
  (forall pre ws1 ws2 sep0 items post,
      contains (lit "keywords") pre = false ->
      blank ws1 = true -> blank ws2 = true ->
      bracket_body sep0 items <> [] ->
      forallb (fun c => negb (c =? RB)%N) (bracket_body sep0 items) = true ->
      no_dq sep0 = true -> forallb item_ok items = true ->
      keywords
        (pre ++
         field "keywords" ws1 ws2
           (lit "[" ++ bracket_body sep0 items ++ [RB]) ++ post)
      = map fst items) /\
  (forall block,
      contains (lit "keywords") block = false -> keywords block = []) /\
  (forall pre ws1 ws2 post,
      contains (lit "keywords") pre = false ->
      contains (lit "keywords") post = false ->
      blank ws1 = true -> blank ws2 = true ->
      keywords (pre ++ field "keywords" ws1 ws2 (lit "[]") ++ post) = []) /\
  keywords
    (lit "keywords = [" ++ [DQ] ++ lit "a" ++ [DQ] ++ lit ", " ++
     [DQ] ++ lit "b" ++ [DQ] ++ lit ", " ++ [DQ] ++ lit "c" ++ [DQ] ++ lit "]")
  = [lit "a"; lit "b"; lit "c"].
Proof.
  repeat apply conj.
  - intros pre ws1 ws2 sep0 items post C H1 H2 Hn Hb H0 Hi. unfold keywords.
    destruct (search_kw pre ws1 ws2 _ post C H1 H2 Hn Hb) as [m [-> ->]].
    now apply findall_bracket_body.
  - intros block C. unfold keywords, kw_re. now rewrite search_absent.
  - intros pre ws1 ws2 post C1 C2 H1 H2. unfold keywords, kw_re.
    rewrite field_app.
    rewrite (search_field_none "keywords"
               (quoted (lit "[") (Plus (NoneOf RB)) [RB]) eq_refl pre ws1 ws2
               (lit "[]" ++ post) C1 H1 H2
               eq_refl (rejects_lit Space 91%N [] _ eq_refl)
               107%N (lit "eywords"));
      field_side.
  - reflexivity.
Qed.

Lemma keywords_in_order_witness :
  keywords
    (lit "id = x" ++ [NL] ++
     field "keywords" [SP] [SP]
       (lit "[" ++
        bracket_body [NL] [(lit "a", lit ", "); (lit "b", [NL])] ++
        [RB]) ++ [NL])
  = [lit "a"; lit "b"].
Proof.
  destruct keywords_in_order as [H _].
  apply (H (lit "id = x" ++ [NL]) [SP] [SP] [NL]
           [(lit "a", lit ", "); (lit "b", [NL])] [NL]);
    first [reflexivity | discriminate].
Defined.

(** ** Segmentation and order *)

(** C8. The text is cut at every [[rules]] marker, what stands before the
    first marker is dropped, and the records come in the order of their
    blocks; a text without the marker gives the empty list.  Every text is
    a header and blocks free of the marker, each block behind a marker, so
    the statements on [assemble] speak of every text. *)
Theorem blocks_in_order :
  (forall content,
      exists header blocks,
        content = assemble DELIM header blocks /\
        contains DELIM header = false /\
        forallb (fun b => negb (contains DELIM b)) blocks = true) /\
  (forall header blocks,
      contains DELIM header = false ->
      forallb (fun b => negb (contains DELIM b)) blocks = true ->
      split (assemble DELIM header blocks) DELIM = header :: blocks) /\
  (forall header blocks rules,
      contains DELIM header = false ->
      forallb (fun b => negb (contains DELIM b)) blocks = true ->
      parse_gitleaks (assemble DELIM header blocks) = Ok rules ->
      rules = flat_map record_of blocks) /\
  (forall header blocks outs,
      contains DELIM header = false ->
      forallb (fun b => negb (contains DELIM b)) blocks = true ->
      Forall2 (fun b o => parse_block b = Ok o) blocks outs ->
      parse_gitleaks (assemble DELIM header blocks) = Ok (records outs)) /\
  (forall content,
      contains DELIM content = false -> parse_gitleaks content = Ok []).
Proof.
  assert (N : DELIM <> []) by discriminate.
  repeat apply conj.
  - intros content.
    exists (hd [] (split content DELIM)), (tl (split content DELIM)).
    split; [symmetry; now apply split_join|].
    assert (F := split_free DELIM N content).
    destruct (split content DELIM) as [|h rest] eqn:S.
    { now apply split_from_nonempty in S. }
    cbn [hd tl forallb] in *. apply andb_true_iff in F as [Fh Fr].
    split; [now apply negb_true_iff | exact Fr].
  - intros header blocks Hh Hb. now apply split_assemble.
  - intros header blocks rules Hh Hb. unfold parse_gitleaks.
    rewrite split_assemble by auto. cbn [tl]. apply loop_records.
  - intros header blocks outs Hh Hb F. unfold parse_gitleaks.
    rewrite split_assemble by auto.
    cbn [tl]. now rewrite (loop_outcomes blocks outs).
  - intros content C. unfold parse_gitleaks.
    now rewrite split_without_sep.
Qed.

Lemma blocks_in_order_witness :
  parse_gitleaks (assemble DELIM sample_header [sample_block; stray_block])
  = Ok (records [Some sample_rule; None]).
Proof.
  destruct blocks_in_order as [_ [_ [_ [H _]]]].
  apply H; [reflexivity | reflexivity |].
  constructor; [vm_compute; reflexivity |].
  constructor; [vm_compute; reflexivity | constructor].
Defined.

(** ** No hidden state *)

(** C9. The result depends on the text alone.  Whatever objects are alive
    when it is called, the function returns a list with the same records
    (or raises the same exception), and leaves the objects it found as they
    were; a second call on the same text, made after the first on the heap
    the first left, returns the same. *)
Theorem result_depends_on_text_only :
  (forall content h1 h2,
      returned (parse_gitleaks_on content h1) =
      returned (parse_gitleaks_on content h2)) /\
  (forall content h,
      let first := parse_gitleaks_on content h in
      let second := parse_gitleaks_on content (snd first) in
      returned second = returned first /\
      firstn (length (snd first)) (snd second) = snd first) /\
  (forall content h,
      returned (parse_gitleaks_on content h) = parse_gitleaks content).
Proof.
  repeat apply conj.
  - intros content h1 h2.
    destruct (parse_gitleaks_on_spec content h1) as [-> _].
    destruct (parse_gitleaks_on_spec content h2) as [-> _]. reflexivity.
  - intros content h first second. unfold second, first. split.
    + destruct (parse_gitleaks_on_spec content h) as [-> _].
      now destruct (parse_gitleaks_on_spec content
                      (snd (parse_gitleaks_on content h))) as [-> _].
    + apply parse_gitleaks_on_spec.
  - intros content h. apply parse_gitleaks_on_spec.
Qed.

(** ** Empty values *)

(** C10, as stated, fails.  An empty value is no value at its own place,
    but the block is read as a whole: behind id = QQ (Q a double quote) the
    identifier pattern finds the letters id, an equals sign and a quoted
    text inside the pattern of the block, and a record is made; behind
    regex = QQ the plain form finds the word regex, an equals sign and two
    quotes among the keywords, and a record is made with the text between
    them as its pattern. *)
Lemma empty_value_found_elsewhere :
  parse_block empty_id_block =
  Ok (Some (Rule (lit "abc") []
                 (lit "client_id=" ++ [DQ] ++ lit "abc" ++ [DQ]) []
                 (Finite 0))) /\
  parse_block empty_regex_block =
  Ok (Some (Rule (lit "k") [] (lit ", ") [lit "regex="; lit "b"]
                 (Finite 0))).
Proof. split; vm_compute; reflexivity. Qed.

(** C10, amended.  At a place where id is followed by blanks, the equals
    sign, blanks and QQ the identifier pattern does not match, whatever
    stands around; when it matches at no other position of the block, the
    block gives no record, whatever else it holds.  At a place where regex
    is followed by blanks, the equals sign, blanks and QQ, the forms in
    triple single quotes and in plain quotes do not match, nor does the
    form in triple double quotes unless a third quote follows; when none
    of the three matches at another position, no pattern is found and the
    block gives no record. *)
Theorem empty_required_field_is_absent :
  (forall pre ws1 ws2 post,
      let block := pre ++ field "id" ws1 ws2 [DQ; DQ] ++ post in
      blank ws1 = true -> blank ws2 = true ->
      matches_at id_re block (length pre) = false /\
      (nowhere_else id_re block (length pre) = true ->
       parse_block block = Ok None)) /\
  (forall pre ws1 ws2 post,
      let block := pre ++ field "regex" ws1 ws2 [DQ; DQ] ++ post in
      blank ws1 = true -> blank ws2 = true ->
      matches_at regex_sq3_re block (length pre) = false /\
      matches_at regex_dq_re block (length pre) = false /\
      (startswith post [DQ] = false ->
       matches_at regex_dq3_re block (length pre) = false /\
       (nowhere_else regex_sq3_re block (length pre) = true ->
        nowhere_else regex_dq3_re block (length pre) = true ->
        nowhere_else regex_dq_re block (length pre) = true ->
        regex_match block = None /\
        forall r, parse_block block <> Ok (Some r)))).
Proof.
  split.
  - intros pre ws1 ws2 post block H1 H2.
    assert (L : length pre <= length block)
      by (unfold block; rewrite length_app; lia).
    assert (M : matches_at id_re block (length pre) = false).
    { unfold block, id_re. rewrite field_app.
      apply no_match_at; field_side. }
    split; [exact M|]. intros E.
    unfold parse_block. destruct (truthy (strip _)); [|reflexivity].
    cbn [negb]. unfold id_match.
    now rewrite (search_nowhere id_re block (length pre) L M E).
  - intros pre ws1 ws2 post block H1 H2.
    assert (L : length pre <= length block)
      by (unfold block; rewrite length_app; lia).
    assert (M1 : matches_at regex_sq3_re block (length pre) = false).
    { unfold block, regex_sq3_re. rewrite field_app.
      apply no_match_at; field_side. }
    assert (M3 : matches_at regex_dq_re block (length pre) = false).
    { unfold block, regex_dq_re. rewrite field_app.
      apply no_match_at; field_side. }
    split; [exact M1|]. split; [exact M3|]. intros S.
    assert (M2 : matches_at regex_dq3_re block (length pre) = false).
    { unfold block, regex_dq3_re. rewrite field_app.
      apply no_match_at;
        [assumption | assumption | reflexivity
        | apply rejects_lit; reflexivity |].
      unfold quoted. apply run_lit_seq_miss. cbn [app startswith].
      destruct post as [|c post]; [reflexivity|].
      cbn [startswith] in S. rewrite andb_true_r in S. now rewrite S. }
    split; [exact M2|]. intros E1 E2 E3.
    assert (R : regex_match block = None).
    { unfold regex_match.
      rewrite (search_nowhere regex_sq3_re block (length pre) L M1 E1).
      rewrite (search_nowhere regex_dq3_re block (length pre) L M2 E2).
      exact (search_nowhere regex_dq_re block (length pre) L M3 E3). }
    split; [exact R | now apply regex_match_none].
Qed.

Lemma empty_required_field_is_absent_witness :
  parse_block empty_id_only = Ok None.
Proof.
  destruct empty_required_field_is_absent as [H _].
  destruct (H [NL] [SP] [SP]
              ([NL] ++ lit "regex = " ++ [DQ] ++ lit "x" ++ [DQ] ++ [NL])
              eq_refl eq_refl) as [_ H'].
  apply H'. vm_compute. reflexivity.
Defined.

(** * Part V.  Further properties *)

(** ** What the patterns capture *)

(** Every text [findall] returns is the group of a hit somewhere in the
    text. *)
Lemma findall_from_all (r : regex) (R : str -> str -> Prop) :
  (forall t h, In h (run r t) -> R (group1 h) t) ->
  (forall g t c, R g t -> R g (c :: t)) ->
  forall s k, Forall (fun g => R g s) (findall_from r k s).
Proof.
  intros H1 H2. induction s as [|c s IH]; intros k; cbn [findall_from].
  - constructor.
  - assert (W : forall k', Forall (fun g => R g (c :: s))
                             (findall_from r k' s)).
    { intros k'. eapply Forall_impl; [|apply (IH k')].
      intros g. apply H2. }
    destruct k as [|k]; [|apply W].
    destruct (run r (c :: s)) as [|h hs] eqn:E; [apply W|].
    constructor; [|apply W].
    apply H1. rewrite E. now left.
Qed.

(** The texts the item pattern finds: each is not empty, holds no double
    quote and stands in the text between double quotes. *)
Lemma findall_items (s : str) :
  Forall (fun g => g <> [] /\ no_dq g = true /\
                   exists a b, s = a ++ [DQ] ++ g ++ [DQ] ++ b)
         (findall kw_item_re s).
Proof.
  unfold findall.
  apply (findall_from_all kw_item_re
           (fun g t => g <> [] /\ no_dq g = true /\
                       exists a b, t = a ++ [DQ] ++ g ++ [DQ] ++ b)).
  - intros t h H. unfold kw_item_re in H.
    pose proof (run_sound _ _ _ H) as S.
    apply in_run_quoted in H as [t' [b [Hb [E G]]]].
    unfold group1. rewrite G.
    destruct (plus_sound (NoneOf DQ) t' b) as [_ [P1 P2]]; [now left|].
    repeat split; try assumption.
    exists [], (rest h). rewrite S, E. now rewrite <- !app_assoc.
  - intros g t c [G1 [G2 [a [b ->]]]]. repeat split; try assumption.
    now exists (c :: a), b.
Qed.

(** The keywords of a block. *)
Lemma keywords_ok (block : str) : Forall keyword_ok (keywords block).
Proof.
  unfold keywords. destruct (search kw_re block) as [m|] eqn:E; [|constructor].
  apply (search_quoted "keywords" (lit "[") [RB] (NoneOf RB)) in E
    as [_ [_ F]]; [|now left].
  eapply Forall_impl; [|apply findall_items].
  intros g [G1 [G2 [a [b I]]]]. repeat split; try assumption.
  intros X. rewrite forallb_forall in F.
  assert (Y : In RB (group1 m)).
  { rewrite I, !in_app_iff. auto. }
  apply F in Y. cbn [mem] in Y. now rewrite N.eqb_refl in Y.
Qed.

Lemma round_half_even_nonneg (num den : Z) :
  (0 <= num)%Z -> (0 < den)%Z -> (0 <= round_half_even num den)%Z.
Proof.
  intros Hn Hd. unfold round_half_even.
  assert (H : (0 <= num / den)%Z) by now apply Z.div_pos.
  destruct (2 * (num mod den) ?= den)%Z; [destruct (Z.even _)| |]; lia.
Qed.

Lemma scaled_nonneg (m x : Z) : (0 <= m)%Z -> (0 <= scaled m x)%Q.
Proof.
  intros H. unfold scaled, Qle.
  destruct (0 <=? x)%Z; cbn [Qnum Qden inject_Z];
    rewrite Z.mul_0_l, Z.mul_1_r.
  - apply Z.mul_nonneg_nonneg; [assumption|]. apply Z.pow_nonneg. lia.
  - assumption.
Qed.

Lemma significand_nonneg (n d x : Z) :
  (0 < n)%Z -> (0 < d)%Z -> (0 <= significand n d x)%Z.
Proof.
  intros Hn Hd. unfold significand. destruct (0 <=? x)%Z eqn:X.
  - apply round_half_even_nonneg; [lia|].
    apply Z.mul_pos_pos; [assumption|].
    apply Z.pow_pos_nonneg; [lia | now apply Z.leb_le].
  - apply round_half_even_nonneg; [|assumption].
    apply Z.mul_nonneg_nonneg; [lia|]. apply Z.pow_nonneg. lia.
Qed.

(** Rounding gives no negative number. *)
Lemma binary64_nonneg (q : Q) : nonneg (binary64 q).
Proof.
  unfold binary64. destruct (Qnum q <=? 0)%Z eqn:E; [apply Qle_refl|].
  apply Z.leb_gt in E. cbv zeta.
  destruct (_ || _); [exact I|]. cbn [nonneg].
  eapply Qle_trans; [|apply Qle_lteq; right; symmetry; apply Qred_correct].
  apply scaled_nonneg, significand_nonneg; [assumption | reflexivity].
Qed.

(** [float] gives no negative number. *)
Lemma float_nonneg (s : str) (x : pyfloat) : float s = Ok x -> nonneg x.
Proof.
  unfold float. destruct (partition_at DOT s) as [ip fp].
  destruct (digits ip) as [a|]; [|discriminate].
  destruct (digits _) as [b|]; [|discriminate].
  destruct (truthy (a ++ b)); [|discriminate].
  intros H. apply Ok_inj in H. subst x. apply binary64_nonneg.
Qed.

Lemma entropy_nonneg (block : str) (x : pyfloat) :
  entropy block = Ok x -> nonneg x.
Proof.
  unfold entropy. destruct (search ent_re block) as [m|].
  - apply float_nonneg.
  - intros H. apply Ok_inj in H. subst x. apply Qle_refl.
Qed.

Lemma regex_pattern_shape (block : str) :
  no_nl (regex_pattern block) = true \/ no_dq (regex_pattern block) = true.
Proof.
  unfold regex_pattern, regex_match.
  destruct (search regex_sq3_re block) as [m|] eqn:E1.
  { left. now apply (search_quoted "regex" _ _ Dot) in E1
      as [_ [_ F]]; [|right]. }
  destruct (search regex_dq3_re block) as [m|] eqn:E2.
  { left. now apply (search_quoted "regex" _ _ Dot) in E2
      as [_ [_ F]]; [|right]. }
  destruct (search regex_dq_re block) as [m|] eqn:E3; [|now left].
  right. now apply (search_quoted "regex" _ _ (NoneOf DQ)) in E3
    as [_ [_ F]]; [|left].
Qed.

(** The fields of the record a block gives. *)
Lemma parse_block_shaped (block : str) (r : rule) :
  parse_block block = Ok (Some r) -> shaped r.
Proof.
  intros H. apply parse_block_some in H as [m [e [_ [I [E [_ ->]]]]]].
  unfold shaped. cbn [r_id r_description r_regex r_keywords r_entropy].
  repeat apply conj.
  - now apply (search_quoted "id" _ _ (NoneOf DQ)) in I as [_ [_ F]]; [|left].
  - unfold description.
    destruct (search desc_re block) as [m'|] eqn:D; [|reflexivity].
    now apply (search_quoted "description" _ _ (NoneOf DQ)) in D
      as [_ [_ F]]; [|left].
  - apply regex_pattern_shape.
  - apply keywords_ok.
  - now apply (entropy_nonneg block).
Qed.

(** Every record returned is the record of a block. *)
Lemma record_from_block (content : str) (rules : list rule) (r : rule) :
  parse_gitleaks content = Ok rules -> In r rules ->
  exists block, parse_block block = Ok (Some r).
Proof.
  unfold parse_gitleaks. intros H Hr. apply loop_records in H as ->.
  cbn [app] in Hr. apply in_flat_map in Hr as [b [_ Hr]].
  unfold record_of in Hr.
  destruct (parse_block b) as [[r'|]|] eqn:P; try contradiction.
  destruct Hr as [<- | []]. now exists b.
Qed.

(** X1. Whatever the text, the records [parse_gitleaks] returns hold only
    what the patterns can capture: no double quote in the identifier or in
    the description; a pattern without newline (triple-quoted forms) or
    without double quote (plain form); keywords that are not empty and hold
    neither a double quote nor a closing bracket; an entropy that is not
    negative. *)
Theorem records_hold_captures (content : str) (rules : list rule) :
  parse_gitleaks content = Ok rules -> Forall shaped rules.
Proof.
  intros H. apply Forall_forall. intros r Hr.
  destruct (record_from_block content rules r H Hr) as [block P].
  now apply (parse_block_shaped block).
Qed.

Lemma records_hold_captures_witness : Forall shaped [sample_rule].
Proof.
  apply (records_hold_captures sample). vm_compute. reflexivity.
Defined.

(** The value of the entropy pattern is written behind the key. *)
Lemma search_entropy (block : str) (m : hit) :
  search ent_re block = Some m ->
  written block "entropy" (group1 m) (rest m).
Proof.
  intros H. apply search_written in H as [t [b [Hb [G W]]]].
  cbn [run] in Hb. apply in_map_iff in Hb as [b' [<- _]].
  unfold group1. now rewrite G.
Qed.

(** X2. Every field of a record is written in its block.  The identifier
    stands between double quotes behind id, blanks, the equals sign and
    blanks; so does a description that is not empty, behind description;
    the pattern stands behind regex between triple single quotes, triple
    double quotes or double quotes; every keyword stands between double
    quotes inside the brackets behind keywords; an entropy other than 0 is
    what [float] makes of the text behind entropy. *)
Theorem fields_are_written (block : str) (r : rule) :
  parse_block block = Ok (Some r) ->
  (exists post, written block "id" ([DQ] ++ r_id r ++ [DQ]) post) /\
  (r_description r = [] \/
   exists post,
     written block "description" ([DQ] ++ r_description r ++ [DQ]) post) /\
  (exists q post,
     In q [[SQ; SQ; SQ]; [DQ; DQ; DQ]; [DQ]] /\
     written block "regex" (q ++ r_regex r ++ q) post) /\
  (r_keywords r = [] \/
   exists inner post,
     written block "keywords" (lit "[" ++ inner ++ [RB]) post /\
     Forall (fun k => exists a b, inner = a ++ [DQ] ++ k ++ [DQ] ++ b)
            (r_keywords r)) /\
  (r_entropy r = Finite 0 \/
   exists num post,
     written block "entropy" num post /\ float num = Ok (r_entropy r)).
Proof.
  intros H. apply parse_block_some in H as [m [e [_ [I [E [T ->]]]]]].
  cbn [r_id r_description r_regex r_keywords r_entropy]. repeat apply conj.
  - exists (rest m).
    now apply (search_quoted "id" _ _ (NoneOf DQ)) in I as [W _]; [|left].
  - unfold description.
    destruct (search desc_re block) as [m'|] eqn:D; [right | now left].
    exists (rest m').
    now apply (search_quoted "description" _ _ (NoneOf DQ)) in D
      as [W _]; [|left].
  - unfold regex_pattern, regex_match in *.
    destruct (search regex_sq3_re block) as [m1|] eqn:E1.
    { exists [SQ; SQ; SQ], (rest m1). split; [now left|].
      now apply (search_quoted "regex" _ _ Dot) in E1 as [W _]; [|right]. }
    destruct (search regex_dq3_re block) as [m2|] eqn:E2.
    { exists [DQ; DQ; DQ], (rest m2). split; [right; now left|].
      now apply (search_quoted "regex" _ _ Dot) in E2 as [W _]; [|right]. }
    destruct (search regex_dq_re block) as [m3|] eqn:E3; [|discriminate].
    exists [DQ], (rest m3). split; [right; right; now left|].
    now apply (search_quoted "regex" _ _ (NoneOf DQ)) in E3
      as [W _]; [|left].
  - unfold keywords.
    destruct (search kw_re block) as [m'|] eqn:K; [right | now left].
    exists (group1 m'), (rest m'). split.
    + now apply (search_quoted "keywords" _ _ (NoneOf RB)) in K
        as [W _]; [|left].
    + eapply Forall_impl; [|apply findall_items].
      intros g [_ [_ G]]. exact G.
  - unfold entropy in E.
    destruct (search ent_re block) as [m'|] eqn:S.
    + right. exists (group1 m'), (rest m').
      split; [now apply search_entropy | exact E].
    + left. apply Ok_inj in E. now subst e.
Qed.

Lemma fields_are_written_witness :
  (exists post, written sample_block "id" ([DQ] ++ lit "aws" ++ [DQ]) post) /\
  (lit "AWS key" = [] \/
   exists post,
     written sample_block "description" ([DQ] ++ lit "AWS key" ++ [DQ])
       post) /\
  (exists q post,
     In q [[SQ; SQ; SQ]; [DQ; DQ; DQ]; [DQ]] /\
     written sample_block "regex" (q ++ lit "AKIA[0-9A-Z]{16}" ++ q) post) /\
  ([lit "akia"; lit "aws"] = [] \/
   exists inner post,
     written sample_block "keywords" (lit "[" ++ inner ++ [RB]) post /\
     Forall (fun k => exists a b, inner = a ++ [DQ] ++ k ++ [DQ] ++ b)
            [lit "akia"; lit "aws"]) /\
  (Finite (7 # 2) = Finite 0 \/
   exists num post,
     written sample_block "entropy" num post /\
     float num = Ok (Finite (7 # 2))).
Proof.
  apply (fields_are_written sample_block sample_rule).
  vm_compute. reflexivity.
Defined.

(** *** The shortest capture *)

(** X3. A triple-quoted pattern is the shortest one: the closing quotes
    start nowhere in the captured text after its first character, not even
    across its end.  This holds for both triple-quoted forms, whatever the
    block. *)
Theorem triple_quoted_capture_shortest (block : str) (m : hit)
    (q u v : str) :
  (q = [SQ; SQ; SQ] /\ search regex_sq3_re block = Some m) \/
  (q = [DQ; DQ; DQ] /\ search regex_dq3_re block = Some m) ->
  group1 m = u ++ v -> u <> [] -> v <> [] ->
  startswith (v ++ q ++ rest m) q = false.
Proof.
  intros [[-> H] | [-> H]].
  - exact (search_lazy_shortest "regex" [SQ; SQ; SQ] _ Dot block m H u v).
  - exact (search_lazy_shortest "regex" [DQ; DQ; DQ] _ Dot block m H u v).
Qed.

Lemma triple_quoted_capture_shortest_witness :
  startswith (lit "b" ++ [SQ; SQ; SQ] ++ lit "c'''") [SQ; SQ; SQ] = false.
Proof.
  apply (triple_quoted_capture_shortest
           (lit "regex = '''ab'''c'''")
           (Hit (lit "regex = '''ab'''") (Some (lit "ab")) (lit "c'''"))
           [SQ; SQ; SQ] (lit "a") (lit "b")).
  - left. split; [reflexivity | vm_compute; reflexivity].
  - reflexivity.
  - discriminate.
  - discriminate.
Defined.

(** ** A block with every field *)






(** ** Fields that are absent *)

(** X5. A record made from a block that does not hold the word description
    has the empty description; without the word keywords it has no keyword,
    without the word entropy its entropy is 0. *)
Theorem absent_fields_default (block : str) (r : rule) :
  parse_block block = Ok (Some r) ->
  (contains (lit "description") block = false -> r_description r = []) /\
  (contains (lit "keywords") block = false -> r_keywords r = []) /\
  (contains (lit "entropy") block = false -> r_entropy r = Finite 0).
Proof.
  intros H. apply parse_block_some in H as [m [e [_ [_ [E [_ ->]]]]]].
  cbn [r_description r_keywords r_entropy]. repeat apply conj; intros C.
  - unfold description, desc_re. now rewrite search_absent.
  - unfold keywords, kw_re. now rewrite search_absent.
  - rewrite entropy_absent in E by assumption. now apply Ok_inj in E.
Qed.

Lemma absent_fields_default_witness :
  r_description good_rule = [] /\ r_keywords good_rule = [] /\
  r_entropy good_rule = Finite 0.
Proof.
  assert (P : parse_block good_block = Ok (Some good_rule))
    by (vm_compute; reflexivity).
  destruct (absent_fields_default good_block good_rule P) as [A [B C]].
  repeat apply conj; [apply A | apply B | apply C]; vm_compute; reflexivity.
Defined.

(** ** The test for a blank block *)

(** X6. The test for a blank block (line 15) never decides anything: a
    block of blanks has no identifier and is passed over by the next test,
    so one turn of the loop is what follows that first test. *)
Theorem blank_test_decides_nothing (block : str) :
  parse_block block =
  match id_match block with
  | None => Ok None
  | Some m =>
      entropy <- entropy block ;;
      if truthy (regex_pattern block)
      then Ok (Some (Rule (group1 m) (description block)
                          (regex_pattern block) (keywords block) entropy))
      else Ok None
  end.
Proof.
  unfold parse_block. destruct (id_match block) as [m|] eqn:M.
  - now rewrite (id_match_not_blank block m M).
  - now destruct (negb _).
Qed.

(** ** Where the function raises *)

Lemma partition_at_spec (c : char) (s : str) :
  ~ In c (fst (partition_at c s)) /\
  s = fst (partition_at c s) ++
      match snd (partition_at c s) with
      | Some b => c :: b
      | None => []
      end.
Proof.
  induction s as [|x s [IH1 IH2]]; cbn [partition_at].
  - split; [intros [] | reflexivity].
  - destruct (x =? c)%N eqn:E.
    + apply N.eqb_eq in E as ->. split; [intros [] | reflexivity].
    + apply N.eqb_neq in E. destruct (partition_at c s) as [a b].
      cbn [fst snd] in *. split.
      * intros [X | X]; [congruence | auto].
      * cbn [app]. now f_equal.
Qed.

Lemma digits_decimal (s : str) :
  forallb isdecimal s = true ->
  exists ds, digits s = Some ds /\ length ds = length s.
Proof.
  induction s as [|c s IH]; cbn [forallb digits]; intros H.
  - now exists [].
  - apply andb_true_iff in H as [Hc H]. destruct (IH H) as [ds [-> L]].
    unfold isdecimal in Hc. destruct (todecimal c) as [d|]; [|discriminate].
    exists (d :: ds). split; [reflexivity | cbn [length]; now rewrite L].
Qed.

Lemma digits_point (s : str) : In DOT s -> digits s = None.
Proof.
  induction s as [|c s IH]; [intros []|].
  intros [-> | H]; cbn [digits].
  - reflexivity.
  - rewrite (IH H). now destruct (todecimal c).
Qed.

Lemma run_without_point (s : str) :
  forallb (mem (DigitOr DOT)) s = true -> ~ In DOT s ->
  forallb isdecimal s = true.
Proof.
  intros H Nd. rewrite forallb_forall in *. intros c Hc.
  specialize (H c Hc). cbn [mem] in H. apply orb_true_iff in H as [H | H].
  - assumption.
  - apply N.eqb_eq in H. subst c. contradiction.
Qed.

Lemma existsb_decimal (s : str) :
  forallb isdecimal s = true -> existsb isdecimal s = truthy s.
Proof.
  destruct s as [|c s]; [reflexivity|]. cbn [forallb existsb truthy].
  intros H. apply andb_true_iff in H as [-> _]. reflexivity.
Qed.

Lemma truthy_length (a b : str) :
  length a = length b -> truthy a = truthy b.
Proof. now destruct a, b. Qed.

(** [float] on a run of digits and points: it raises exactly when the run
    has no digit or more than one point. *)
Lemma float_run (s : str) :
  forallb (mem (DigitOr DOT)) s = true ->
  float s = Raise ValueError <-> refused s = true.
Proof.
  intros R. unfold float, refused.
  destruct (partition_at_spec DOT s) as [Nd E].
  destruct (partition_at DOT s) as [ip fp]. cbn [fst snd] in Nd, E.
  assert (Ri : forallb (mem (DigitOr DOT)) ip = true /\
               forallb (mem (DigitOr DOT))
                 match fp with Some b => DOT :: b | None => [] end = true)
    by (apply andb_true_iff; rewrite <- forallb_app; now rewrite <- E).
  destruct Ri as [Ri Rf].
  pose proof (run_without_point ip Ri Nd) as Di.
  destruct (digits_decimal ip Di) as [a [-> La]].
  assert (Ci : count_occ N.eq_dec ip DOT = 0%nat)
    by now apply count_occ_not_In.
  destruct fp as [f|].
  - cbn [forallb] in Rf. apply andb_true_iff in Rf as [_ Rf].
    rewrite E, count_occ_app, Ci, count_occ_cons_eq by reflexivity.
    rewrite existsb_app. cbn [existsb].
    replace (isdecimal DOT) with false by (vm_compute; reflexivity).
    cbn [orb plus].
    destruct (in_dec N.eq_dec DOT f) as [I | I].
    + rewrite (digits_point f I).
      apply (count_occ_In N.eq_dec) in I.
      replace (2 <=? S (count_occ N.eq_dec f DOT))%nat with true
        by (symmetry; apply Nat.leb_le; lia).
      rewrite orb_true_r. tauto.
    + pose proof (run_without_point f Rf I) as Df.
      destruct (digits_decimal f Df) as [b [-> Lb]].
      apply (count_occ_not_In N.eq_dec) in I. rewrite I.
      cbn [Nat.leb]. rewrite orb_false_r.
      rewrite !existsb_decimal by assumption.
      assert (T : truthy (a ++ b) = truthy ip || truthy f)
        by (destruct a, b, ip, f; try discriminate; reflexivity).
      rewrite T. destruct (truthy ip || truthy f); cbn [negb];
        split; congruence.
  - rewrite app_nil_r in E. subst ip. cbn [digits]. rewrite app_nil_r.
    rewrite Ci. cbn [Nat.leb]. rewrite orb_false_r.
    rewrite existsb_decimal by assumption.
    rewrite (truthy_length a s La).
    destruct (truthy s); cbn [negb]; split; congruence.
Qed.

(** X7. Reading the entropy of a block raises exactly when the entropy
    pattern matches and the run of digits and points it captures holds no
    digit or more than one point. *)
Theorem entropy_raises_exactly (block : str) :
  entropy block = Raise ValueError <->
  exists m, search ent_re block = Some m /\ refused (group1 m) = true.
Proof.
  unfold entropy. destruct (search ent_re block) as [m|] eqn:E.
  - apply ent_capture in E as [_ R]. rewrite (float_run _ R). split.
    + intros H. now exists m.
    + intros [m' [M H]]. congruence.
  - split; [discriminate | intros [m [M _]]; discriminate].
Qed.

(** A block that raises stops the loop, wherever it stands. *)
Lemma loop_raises_at (blocks : list str) : forall rules block,
  In block blocks -> parse_block block = Raise ValueError ->
  loop rules blocks = Raise ValueError.
Proof.
  induction blocks as [|b bs IH]; intros rules block I P; [destruct I|].
  cbn [loop]. destruct (parse_block b) as [[r|]|[]] eqn:B; cbn [bind].
  - destruct I as [-> | I]; [congruence | eauto].
  - destruct I as [-> | I]; [congruence | eauto].
  - reflexivity.
Qed.

(** X8. [parse_gitleaks] raises exactly when some block behind a marker has
    an identifier and, behind an entropy key, a run of digits and points
    without digit or with more than one point. *)
Theorem raises_exactly (content : str) :
  parse_gitleaks content = Raise ValueError <->
  exists block m,
    In block (tl (split content DELIM)) /\ id_match block <> None /\
    search ent_re block = Some m /\ refused (group1 m) = true.
Proof.
  split.
  - intros H. apply raise_only_from_float in H as [block [m [I [J [S F]]]]].
    exists block, m. repeat split; try assumption.
    apply float_run; [|assumption]. now apply ent_capture in S.
  - intros [block [m [I [J [S F]]]]]. unfold parse_gitleaks.
    apply (loop_raises_at _ _ block I). apply parse_block_raise.
    destruct (id_match block) as [mi|] eqn:M; [|congruence].
    split; [now apply (id_match_not_blank block mi)|].
    split; [discriminate|]. exists m. split; [assumption|].
    apply float_run; [|assumption]. now apply ent_capture in S.
Qed.

(** ** The entries *)

(** X9. The loop of [main] gives the rules the target does not have yet
    their entries, in the order of the list, and numbers them without gap:
    a rule whose identifier is in [EXISTING_RULES] prints nothing and takes
    no number.  From 163, the first entry is number 164. *)
Theorem entries_numbered (sec_num : N) (rules : list rule) :
  generate sec_num rules =
  flat_map (fun '(k, r) => entry k r)
           (numbered (sec_num + 1) (filter fresh rules)).
Proof.
  revert sec_num. induction rules as [|r rules IH]; intros sec_num.
  - reflexivity.
  - cbn [generate filter]. unfold fresh at 1.
    destruct (is_existing (r_id r)); cbn [negb].
    + apply IH.
    + cbn [numbered flat_map]. now rewrite IH.
Qed.

(** *** Numbers *)

Lemma decimal_from_value (fuel : nat) : forall n acc,
  (n < 10 ^ N.of_nat fuel)%N ->
  fold_left (fun a d => 10 * a + d)%N (decimal_from fuel n acc) 0%N =
  fold_left (fun a d => 10 * a + d)%N acc n.
Proof.
  induction fuel as [|fuel IH]; intros n acc H.
  - cbn [decimal_from]. change (10 ^ N.of_nat 0)%N with 1%N in H.
    now replace n with 0%N by lia.
  - cbn [decimal_from].
    assert (D : n = (10 * (n / 10) + n mod 10)%N)
      by (apply N.div_mod; discriminate).
    destruct (n / 10 =? 0)%N eqn:E.
    + apply N.eqb_eq in E. cbn [fold_left]. f_equal. lia.
    + rewrite IH.
      * cbn [fold_left]. now rewrite <- D.
      * rewrite Nat2N.inj_succ, N.pow_succ_r' in H.
        apply N.Div0.div_lt_upper_bound. exact H.
Qed.

Lemma decimal_from_small (fuel : nat) : forall n acc,
  Forall (fun d => d < 10)%N acc ->
  Forall (fun d => d < 10)%N (decimal_from fuel n acc).
Proof.
  induction fuel as [|fuel IH]; intros n acc H; cbn [decimal_from].
  - assumption.
  - assert (H' : Forall (fun d => d < 10)%N ((n mod 10)%N :: acc)).
    { constructor; [|assumption]. apply N.mod_lt. discriminate. }
    destruct (n / 10 =? 0)%N; [assumption | now apply IH].
Qed.

Lemma decimal_digits_value (n : N) : of_digits (decimal_digits n) = n.
Proof.
  unfold of_digits, decimal_digits. rewrite decimal_from_value.
  - reflexivity.
  - rewrite Nat2N.inj_succ, N2Nat.id.
    destruct n as [|p]; [reflexivity|].
    apply N.lt_le_trans with (2 ^ N.succ (N.log2 (N.pos p)))%N.
    + apply N.log2_spec. reflexivity.
    + apply N.pow_le_mono_l. lia.
Qed.

Lemma digits_of_decimal (ds : list N) :
  Forall (fun d => d < 10)%N ds ->
  digits (map (fun d => 48 + d)%N ds) = Some ds.
Proof.
  induction 1 as [|d ds Hd _ IH]; [reflexivity|].
  cbn [map digits]. rewrite IH, todecimal_ascii.
  - do 2 f_equal. lia.
  - apply andb_true_iff. split; [apply N.leb_le | apply N.leb_le]; lia.
Qed.

Lemma digits_zeros (k : nat) (s : str) :
  digits (repeat 48%N k ++ s) = option_map (app (repeat 0%N k)) (digits s).
Proof.
  induction k as [|k IH]; cbn [repeat app].
  - now destruct (digits s).
  - cbn [digits]. rewrite IH.
    change (todecimal 48) with (Some 0%N). now destruct (digits s).
Qed.

Lemma of_digits_zeros (k : nat) (ds : list N) :
  of_digits (repeat 0%N k ++ ds) = of_digits ds.
Proof.
  unfold of_digits. induction k as [|k IH]; [reflexivity | exact IH].
Qed.

(** The number written reads back. *)
Lemma format_03d_value (n : N) :
  option_map of_digits (digits (format_03d n)) = Some n.
Proof.
  unfold format_03d, decimal. rewrite digits_zeros, digits_of_decimal.
  - cbn [option_map]. now rewrite of_digits_zeros, decimal_digits_value.
  - apply decimal_from_small. constructor.
Qed.

(** X10. The identifier of an entry reads back as its number: behind SEC-
    stand at least three ASCII digits whose decimal value is the number, so
    that entries with different numbers have different identifiers; the
    number is written in full when it needs more than three digits. *)
Theorem rule_id_reads_back (n m : N) :
  firstn 4 (rule_id n) = lit "SEC-" /\
  option_map of_digits (digits (skipn 4 (rule_id n))) = Some n /\
  (3 <= length (skipn 4 (rule_id n)))%nat /\
  (rule_id n = rule_id m <-> n = m).
Proof.
  assert (S : forall k, skipn 4 (rule_id k) = format_03d k) by reflexivity.
  repeat apply conj.
  - reflexivity.
  - rewrite S. apply format_03d_value.
  - rewrite S. unfold format_03d. rewrite length_app, repeat_length. lia.
  - intros H. apply (f_equal (skipn 4)) in H. rewrite !S in H.
    apply (f_equal (fun s => option_map of_digits (digits s))) in H.
    rewrite !format_03d_value in H. congruence.
  - now intros ->.
Qed.

(** *** Keywords *)

Lemma findall_no_dq (s : str) : no_dq s = true -> findall kw_item_re s = [].
Proof.
  intros H. rewrite <- (app_nil_r s). now rewrite findall_item_sep.
Qed.

Lemma str_join_cons (sep x y : str) (rest : list str) :
  str_join sep (x :: y :: rest) = x ++ sep ++ str_join sep (y :: rest).
Proof. reflexivity. Qed.

(** Quoted keywords joined by a comma and a space, then text without double
    quote: [findall] gives the keywords back. *)
Lemma findall_joined (kws : list str) (tail : str) :
  Forall (fun k => k <> [] /\ no_dq k = true) kws -> no_dq tail = true ->
  findall kw_item_re
    (str_join (lit ", ") (map (fun k => [DQ] ++ k ++ [DQ]) kws) ++ tail)
  = kws.
Proof.
  intros F T. induction F as [|k kws [K1 K2] F IH].
  - now apply findall_no_dq.
  - destruct kws as [|k' kws].
    + cbn [map str_join]. rewrite <- !app_assoc.
      rewrite findall_item by assumption. now rewrite findall_no_dq.
    + cbn [map] in *. rewrite str_join_cons. rewrite <- !app_assoc.
      rewrite findall_item by assumption.
      rewrite findall_item_sep by reflexivity.
      f_equal. exact IH.
Qed.

(** X11. The keywords of an entry can be read back: when no keyword is empty
    or holds a double quote, the quoted strings of the text printed for
    them are the keywords, in their order; without keywords the text is
    nil and holds none. *)
Theorem keywords_render_back (kws : list str) :
  Forall (fun k => k <> [] /\ no_dq k = true) kws ->
  findall kw_item_re (kw_str kws) = kws.
Proof.
  intros F. unfold kw_str. destruct kws as [|k kws]; [reflexivity|].
  rewrite findall_item_sep by reflexivity.
  apply findall_joined; [assumption | reflexivity].
Qed.

Lemma keywords_render_back_witness :
  findall kw_item_re (kw_str [lit "akia"; lit "aws"])
  = [lit "akia"; lit "aws"].
Proof.
  apply (keywords_render_back [lit "akia"; lit "aws"]).
  repeat constructor; discriminate.
Defined.

(** *** The description *)

(** [replace] of one character works character by character. *)
Lemma replace_char (s : str) (c : char) (new : str) :
  replace s [c] new = flat_map (fun x => if (c =? x)%N then new else [x]) s.
Proof.
  unfold replace, split. induction s as [|x s IH]; [reflexivity|].
  cbn [split_from startswith flat_map length Nat.sub].
  rewrite andb_true_r. destruct (c =? x)%N.
  - rewrite <- IH. destruct (split_from [c] 0 s) as [|seg segs] eqn:E.
    + now apply split_from_nonempty in E.
    + rewrite str_join_cons. reflexivity.
  - rewrite <- IH. destruct (split_from [c] 0 s) as [|seg segs] eqn:E.
    + now apply split_from_nonempty in E.
    + destruct segs; reflexivity.
Qed.

Lemma flat_map_twice {A B C} (f : A -> list B) (g : B -> list C)
    (l : list A) :
  flat_map g (flat_map f l) = flat_map (fun x => flat_map g (f x)) l.
Proof.
  induction l as [|x l IH]; [reflexivity|].
  cbn [flat_map]. now rewrite flat_map_app, IH.
Qed.

Lemma desc_escaped (r : rule) : desc r = flat_map escaped (r_description r).
Proof.
  unfold desc. rewrite !replace_char, flat_map_twice.
  apply flat_map_ext. intros x. unfold escaped.
  rewrite (N.eqb_sym DQ x).
  destruct (x =? DQ)%N eqn:E1.
  - reflexivity.
  - cbn [flat_map]. rewrite (N.eqb_sym NL x).
    now destruct (x =? NL)%N.
Qed.

(** In escaped text a double quote stands behind a backslash. *)
Lemma escaped_quotes (d : str) : forall u v,
  flat_map escaped d = u ++ DQ :: v -> exists u', u = u' ++ [BACKSLASH].
Proof.
  induction d as [|x d IH]; intros u v H.
  - destruct u; discriminate.
  - cbn [flat_map] in H. unfold escaped at 1 in H.
    destruct (x =? DQ)%N eqn:E1; [|destruct (x =? NL)%N eqn:E2].
    + destruct u as [|a [|b u]]; cbn [app] in H.
      * discriminate.
      * exists []. cbn [app]. congruence.
      * assert (H' : flat_map escaped d = u ++ DQ :: v) by congruence.
        apply IH in H' as [u' ->]. exists (a :: b :: u'). reflexivity.
    + destruct u as [|a u]; cbn [app] in H; [discriminate|].
      assert (H' : flat_map escaped d = u ++ DQ :: v) by congruence.
      apply IH in H' as [u' ->]. now exists (a :: u').
    + destruct u as [|a u]; cbn [app] in H.
      * assert (X : x = DQ) by congruence. subst x.
        now rewrite N.eqb_refl in E1.
      * assert (H' : flat_map escaped d = u ++ DQ :: v) by congruence.
        apply IH in H' as [u' ->]. now exists (a :: u').
Qed.

(** X12. The description of an entry is the parsed one character by
    character, a double quote written as backslash and double quote, a
    newline as a space, every other character as it is, the backslash
    included.  The text holds no newline, and every double quote in it
    stands behind a backslash. *)
Theorem desc_charwise (r : rule) :
  desc r = flat_map escaped (r_description r) /\
  ~ In NL (desc r) /\
  (forall u v, desc r = u ++ DQ :: v -> exists u', u = u' ++ [BACKSLASH]).
Proof.
  rewrite desc_escaped. repeat apply conj.
  - reflexivity.
  - rewrite in_flat_map. intros [x [_ H]]. unfold escaped in H.
    destruct (x =? DQ)%N; [|destruct (x =? NL)%N eqn:E].
    + destruct H as [H | [H | []]]; discriminate.
    + destruct H as [H | []]; discriminate.
    + destruct H as [H | []]. subst x. now rewrite N.eqb_refl in E.
  - apply escaped_quotes.
Qed.

Lemma desc_charwise_witness :
  exists u', lit "say " ++ [BACKSLASH] = u' ++ [BACKSLASH].
Proof.
  destruct (desc_charwise
              (Rule [] (lit "say " ++ [DQ] ++ lit "hi" ++ [DQ]) [] []
                    (Finite 0)))
    as [_ [_ H]].
  apply (H (lit "say " ++ [BACKSLASH]) (lit "hi" ++ [BACKSLASH; DQ])).
  vm_compute. reflexivity.
Defined.

(** *** From the text to the entries *)

Lemma escaped_no_dq (d : str) :
  no_dq d = true ->
  flat_map escaped d = map (fun c => if (c =? NL)%N then SP else c) d.
Proof.
  unfold no_dq. induction d as [|x d IH]; [reflexivity|].
  cbn [forallb flat_map map]. intros H.
  apply andb_true_iff in H as [Hx H]. rewrite (IH H).
  unfold escaped. apply negb_true_iff in Hx. rewrite Hx.
  now destruct (x =? NL)%N.
Qed.

(** X13. For the rules [parse_gitleaks] returns, the escaping of quotes in
    [main] never applies, since no parsed description holds a double
    quote: the description printed is the parsed one with each newline
    turned into a space, of the same length; and the keywords printed read
    back as the parsed keywords. *)
Theorem parsed_rules_render (content : str) (rules : list rule) :
  parse_gitleaks content = Ok rules ->
  Forall (fun r =>
            desc r = map (fun c => if (c =? NL)%N then SP else c)
                         (r_description r) /\
            findall kw_item_re (kw_str (r_keywords r)) = r_keywords r)
         rules.
Proof.
  intros H. apply Forall_forall. intros r Hr.
  destruct (record_from_block content rules r H Hr) as [block P].
  apply parse_block_shaped in P as [_ [D [_ [K _]]]]. split.
  - rewrite desc_escaped. now apply escaped_no_dq.
  - unfold kw_str. destruct (r_keywords r) as [|k kws]; [reflexivity|].
    rewrite findall_item_sep by reflexivity.
    apply findall_joined; [|reflexivity].
    eapply Forall_impl; [|exact K]. intros w [K1 [K2 _]]. now split.
Qed.

Lemma parsed_rules_render_witness :
  Forall (fun r =>
            desc r = map (fun c => if (c =? NL)%N then SP else c)
                         (r_description r) /\
            findall kw_item_re (kw_str (r_keywords r)) = r_keywords r)
         [sample_rule].
Proof.
  apply (parsed_rules_render sample). vm_compute. reflexivity.
Defined.

(** A rule the target has and one it does not have give one entry; the
    severity is medium above 4.5 and high up to it. *)
Example entries_example :
  generate 163
    [Rule (lit "github-token") [] (lit "x") [] (Finite 0); full_rule]
  = entry 164 full_rule /\
  nth 0 (entry 164 full_rule) [] =
  [TAB; TAB] ++ lit "// SEC-164 (from Gitleaks: new-key)" /\
  nth 4 (entry 164 full_rule) [] =
  [TAB; TAB; TAB] ++ lit "keywords: []string{" ++ [DQ] ++ lit "nk_" ++ [DQ]
  ++ lit ", " ++ [DQ] ++ lit "new" ++ [DQ] ++ lit "}," /\
  severity (Rule [] [] [] [] (Finite (9 # 2)))
  = lit "findings.SeverityHigh" /\
  severity (Rule [] [] [] [] Infinity) = lit "findings.SeverityMedium".
Proof. repeat apply conj; vm_compute; reflexivity. Qed.
